(** * Directory navigator of staging_setup_utility.py

    Shallow embedding of [FileSystemNavigator] (populate_root,
    _populate_directory, navigate_to_directory, navigate_back) and of the
    parts of [SystemUtilityGUI] that drive it (_on_double_click, copy_file,
    cut_paste_file).

    Modelling choices:
    - the file system is a record of two functions: [isdir] ([os.path.isdir])
      and [scandir] ([os.scandir]) which either yields the entries in on-disk
      order or raises [PermissionError] or another exception with a message;
    - [os.path] is [posixpath] ([dirname], [basename], [join]);
    - a Python [str] is a Rocq [string] read as a sequence of code points
      U+0000..U+00FF (one [ascii] per code point, so string comparison is
      Python's code-point order); [str.lower], [str.isspace], [str.split]
      and [str.strip] follow Python on that range, and text with code
      points above U+00FF is not modelled;
    - the ttk tree view is the list of its top-level items, each with the
      iid that [insert] allocated; [tag_configure] calls only change colours
      and are not modelled;
    - Python's [sorted] is a stable sort; [stable_sort] is a stable
      insertion sort, which gives the same list for the same key. *)

From Stdlib Require Import String Ascii List Bool Arith Lia Sorting.Permutation
  Sorting.Sorted Structures.OrdersEx Classes.RelationClasses.
Import ListNotations.
Open Scope list_scope.
Open Scope string_scope.

(** ** Strings and [posixpath] *)

Definition slash : ascii := "/"%char.

Definition is_slash (c : ascii) : bool := Ascii.eqb c slash.

Fixpoint take_while {A} (p : A -> bool) (l : list A) : list A :=
  match l with
  | [] => []
  | x :: xs => if p x then x :: take_while p xs else []
  end.

Fixpoint drop_while {A} (p : A -> bool) (l : list A) : list A :=
  match l with
  | [] => []
  | x :: xs => if p x then drop_while p xs else l
  end.

(** [p[:i]] and [p[i:]] with [i = p.rfind('/') + 1]. *)
Definition split_at_last_slash (p : string) : list ascii * list ascii :=
  let r := rev (list_ascii_of_string p) in
  (rev (drop_while (fun c => negb (is_slash c)) r),
   rev (take_while (fun c => negb (is_slash c)) r)).

(** posixpath.dirname:
    head = p[:i]; if head and head != '/'*len(head): head = head.rstrip('/') *)
Definition dirname (p : string) : string :=
  let head := fst (split_at_last_slash p) in
  match head with
  | [] => ""
  | _ =>
      if forallb is_slash head then string_of_list_ascii head
      else string_of_list_ascii (rev (drop_while is_slash (rev head)))
  end.

(** posixpath.basename: p[i:] *)
Definition basename (p : string) : string :=
  string_of_list_ascii (snd (split_at_last_slash p)).

(** posixpath.join for two components. *)
Definition join (a b : string) : string :=
  if String.prefix "/" b then b
  else if (a =? "")%string then b
  else if is_slash (last (list_ascii_of_string a) "a"%char) then a ++ b
  else a ++ "/" ++ b.

(** [str.lower] on one code point of U+0000..U+00FF: the capitals A-Z,
    U+00C0..U+00D6 and U+00D8..U+00DE map to the code point 32 above;
    every other code point of the range is its own lower case. *)
Definition ascii_lower (c : ascii) : ascii :=
  let n := nat_of_ascii c in
  if ((Nat.leb 65 n && Nat.leb n 90) || (Nat.leb 192 n && Nat.leb n 222 && negb (Nat.eqb n 215)))%bool
  then ascii_of_nat (n + 32)%nat else c.

(** [str.lower] *)
Definition lower (s : string) : string :=
  string_of_list_ascii (map ascii_lower (list_ascii_of_string s)).

(** ** File system *)

(** An [os.DirEntry]: its name and [is_dir()]; its [path] attribute is
    [os.path.join(scandir_path, name)]. *)
Record DirEntry := mkEntry { name : string; is_dir : bool }.

Inductive ScanResult :=
| ScanOk (entries : list DirEntry)       (** entries in on-disk order *)
| ScanPermissionError
| ScanError (msg : string).              (** any other exception, [str(e)] *)

Record FS := mkFS {
  isdir : string -> bool;
  scandir : string -> ScanResult
}.

(** ** Sorting: [sorted(entries, key=lambda e: (not e.is_dir(), e.name.lower()))] *)

Definition sort_key (e : DirEntry) : bool * string := (negb (is_dir e), lower (name e)).

(** Python tuple comparison [k1 <= k2] on [(bool, str)]. *)
Definition key_leb (k1 k2 : bool * string) : bool :=
  match k1, k2 with
  | (b1, s1), (b2, s2) =>
      if Bool.eqb b1 b2 then String.leb s1 s2 else negb b1 && b2
  end.

Definition entry_leb (e1 e2 : DirEntry) : bool := key_leb (sort_key e1) (sort_key e2).

Fixpoint insert_entry (e : DirEntry) (l : list DirEntry) : list DirEntry :=
  match l with
  | [] => [e]
  | y :: ys => if entry_leb e y then e :: y :: ys else y :: insert_entry e ys
  end.

Fixpoint stable_sort (l : list DirEntry) : list DirEntry :=
  match l with
  | [] => []
  | x :: xs => insert_entry x (stable_sort xs)
  end.

(** ** The tree view and the navigator state *)

Record Row := mkRow {
  text : string;
  values : string * string;
  tags : list string
}.

(** A node of the tree: the invisible root [''] or an item iid. *)
Inductive Node := NRoot | NItem (iid : nat).

Record Nav := mkNav {
  tree : list (nat * Row);          (** top-level items with their iids *)
  next_iid : nat;
  hidden_files : bool;
  populated_nodes : list Node;      (** a Python set *)
  current_path : option string;
  navigation_history : list string
}.

Definition view (s : Nav) : list Row := map snd (tree s).

Definition set_tree (s : Nav) (t : list (nat * Row)) : Nav :=
  mkNav t (next_iid s) (hidden_files s) (populated_nodes s) (current_path s)
    (navigation_history s).

Definition set_history (s : Nav) (h : list string) : Nav :=
  mkNav (tree s) (next_iid s) (hidden_files s) (populated_nodes s) (current_path s) h.

Definition set_current (s : Nav) (p : option string) : Nav :=
  mkNav (tree s) (next_iid s) (hidden_files s) (populated_nodes s) p
    (navigation_history s).

Definition node_eqb (a b : Node) : bool :=
  match a, b with
  | NRoot, NRoot => true
  | NItem i, NItem j => Nat.eqb i j
  | _, _ => false
  end.

(** [populated_nodes.add(n)] *)
Definition add_populated (s : Nav) (n : Node) : Nav :=
  mkNav (tree s) (next_iid s) (hidden_files s)
    (if existsb (node_eqb n) (populated_nodes s) then populated_nodes s
     else populated_nodes s ++ [n])
    (current_path s) (navigation_history s).

(** [tree.insert('', 'end', ...)]: returns the new iid and the new state. *)
Definition tree_insert (s : Nav) (r : Row) : nat * Nav :=
  (next_iid s,
   mkNav (tree s ++ [(next_iid s, r)]) (S (next_iid s)) (hidden_files s)
     (populated_nodes s) (current_path s) (navigation_history s)).

Definition insert_row (s : Nav) (r : Row) : Nav := snd (tree_insert s r).

Fixpoint insert_rows (s : Nav) (rs : list Row) : Nav :=
  match rs with
  | [] => s
  | r :: rs' => insert_rows (insert_row s r) rs'
  end.

(** [for item in tree.get_children(): tree.delete(item)] *)
Definition clear_tree (s : Nav) : Nav := set_tree s [].

(** ** Rows inserted by the navigator *)

Definition dotdot_row (path : string) : Row :=
  mkRow ".." (dirname path, "Directory") ["directory"].

Definition access_denied_row : Row := mkRow "Access Denied" ("Access Denied", "") [].

Definition error_row (msg : string) : Row :=
  mkRow ("Error: " ++ msg) ("Error: " ++ msg, "") [].

Definition empty_row : Row := mkRow "(Empty)" ("", "") ["colored"].

Definition root_row (path : string) : Row := mkRow path (path, "") [].

(** The row of one listed entry; [count] is the number of rows already
    listed, used for the zebra tags. *)
Definition entry_row (path : string) (count : nat) (e : DirEntry) : Row :=
  mkRow (name e)
    (join path (name e), if is_dir e then "Directory" else "File")
    [if is_dir e then "directory" else "file";
     if Nat.even count then "evenrow" else "oddrow"].

Definition is_hidden_name (n : string) : bool := String.prefix "." n.

(** The [for entry in sorted_entries] loop: the rows it inserts. *)
Fixpoint entry_rows (hidden : bool) (path : string) (count : nat)
    (es : list DirEntry) : list Row :=
  match es with
  | [] => []
  | e :: es' =>
      if negb hidden && is_hidden_name (name e) then entry_rows hidden path count es'
      else entry_row path count e :: entry_rows hidden path (S count) es'
  end.

(** ** FileSystemNavigator *)

(** [_populate_directory(parent, path)].  Every exception raised inside its
    [try] is caught there, so the function itself never raises. *)
Definition populate_directory (fs : FS) (s : Nav) (parent : Node) (path : string) : Nav :=
  let s0 := clear_tree s in
  match navigation_history s0 with
  | [] => insert_row s0 (error_row "list index out of range")   (* IndexError *)
  | h0 :: _ =>
      let s1 := if (path =? h0)%string then s0 else insert_row s0 (dotdot_row path) in
      match scandir fs path with
      | ScanPermissionError => insert_row s1 access_denied_row
      | ScanError msg => insert_row s1 (error_row msg)
      | ScanOk es =>
          let rows := entry_rows (hidden_files s1) path 0 (stable_sort es) in
          let s2 := insert_rows s1 rows in
          let s3 := set_current (add_populated s2 parent) (Some path) in
          match rows with
          | [] => insert_row s3 empty_row        (* not has_entries *)
          | _ => s3
          end
      end
  end.

(** [populate_root(path)].  Its [except] clauses are unreachable since
    [_populate_directory] catches everything, and so are not modelled. *)
Definition populate_root (fs : FS) (s : Nav) (path : string) : Nav :=
  let s1 := mkNav [] (next_iid s) (hidden_files s) [] (Some path) [path] in
  let (root_node, s2) := tree_insert s1 (root_row path) in
  let s3 :=
    match current_path s2 with
    | Some c => if (c =? path)%string then s2 else insert_row s2 (dotdot_row c)
    | None => s2
    end in
  let s4 := populate_directory fs s3 (NItem root_node) path in
  add_populated s4 (NItem root_node).

(** [navigate_to_directory(path)]; [None] when it raises: with
    [current_path = None], [os.path.dirname(None)] raises [TypeError]. *)
Definition navigate_to_directory (fs : FS) (s : Nav) (path : string) : option Nav :=
  if isdir fs path then
    match current_path s with
    | None => None
    | Some c =>
        let s1 := if (path =? dirname c)%string then s
                  else set_history s (navigation_history s ++ [path]) in
        Some (populate_directory fs s1 NRoot path)
    end
  else Some s.

(** [navigate_back()] *)
Definition navigate_back (fs : FS) (s : Nav) : Nav :=
  if Nat.ltb 1 (length (navigation_history s)) then
    let h := removelast (navigation_history s) in   (* pop() *)
    let previous_path := last h "" in               (* history[-1] *)
    populate_directory fs (set_history s h) NRoot previous_path
  else s.

(** ** SystemUtilityGUI *)

(** What a double-click on a row does ([_on_double_click]). *)
Inductive Action := DoNavigateBack | DoNavigateTo (path : string) | DoNothing.

Definition on_double_click (r : Row) : Action :=
  let (path, item_type) := values r in
  if (item_type =? "Directory")%string then
    if (text r =? "..")%string then DoNavigateBack else DoNavigateTo path
  else DoNothing.

Record Gui := mkGui { nav_source : Nav; nav_dest : Nav }.

(** Observable effects of the GUI handlers, in order. *)
Inductive Effect :=
| ShowWarning (title msg : string)
| ShowError (title msg : string)
| AskYesNo (title msg : string)
| RunPowershell (command : string)
| SetStatus (msg : string).

(** [_get_selected_path(tree)]: [sel] is the first selected row, if any. *)
Definition get_selected_path (sel : option Row) : list Effect * option string :=
  match sel with
  | None => ([ShowWarning "Selection Required" "Please select a file to transfer"], None)
  | Some r => ([], Some (fst (values r)))
  end.

(** [run_powershell_command(command)]: [runner] is the external command
    runner, returning [(stdout, stderr)]; [None] stands for [False]. *)
Definition run_powershell_command (runner : string -> string * string) (command : string)
    : list Effect * option string :=
  let (out, err) := runner command in
  if (err =? "")%string then ([], Some out) else ([ShowError "Error" err], None).

Definition ps_command (verb source dest : string) : string :=
  "$source = '" ++ source ++ "'; $dest = '" ++ dest ++ "'; " ++ verb
    ++ " -Path $source -Destination $dest -Force".

Definition exists_message (filename : string) : string :=
  "File '" ++ filename ++ "' already exists in destination. Do you want to replace it?".

(** The world the copy and move handlers run in: [exists] is
    [os.path.exists], [runner] the external command runner and [confirm] the
    answer the user gives to [messagebox.askyesno]. *)
Record World := mkWorld {
  wfs : FS;
  exists_path : string -> bool;
  runner : string -> string * string;
  confirm : bool
}.

(** Shared front part of [copy_file] and [cut_paste_file]: selection,
    destination, overwrite confirmation.  [inr] carries the effects so far
    with the source path, the file name and the destination path when the
    handler goes on to run the command; [inl] the effects of an early return. *)
Definition transfer_prelude (w : World) (sel : option Row) (g : Gui)
    : list Effect + (list Effect * string * string * string * string) :=
  let (e1, sp) := get_selected_path sel in
  match sp with
  | None => inl e1
  | Some source_path =>
      if (source_path =? "")%string then inl e1            (* if not source_path *)
      else
        match current_path (nav_dest g) with
        | None => inl (e1 ++ [ShowError "Error" "Please select a destination directory"])%list
        | Some dest_dir =>
            if (dest_dir =? "")%string then
              inl (e1 ++ [ShowError "Error" "Please select a destination directory"])%list
            else
              let filename := basename source_path in
              let dest_path := join dest_dir filename in
              if exists_path w dest_path then
                let e2 := (e1 ++ [AskYesNo "File Exists" (exists_message filename)])%list in
                if confirm w then inr (e2, source_path, dest_dir, filename, dest_path)
                else inl e2
              else inr (e1, source_path, dest_dir, filename, dest_path)
        end
  end.

(** [copy_file()] *)
Definition copy_file (w : World) (sel : option Row) (g : Gui) : Gui * list Effect :=
  match transfer_prelude w sel g with
  | inl effs => (g, effs)
  | inr (e1, source_path, dest_dir, filename, dest_path) =>
      let cmd := ps_command "Copy-Item" source_path dest_path in
      let (e2, result) := run_powershell_command (runner w) cmd in
      let e3 := (e1 ++ [RunPowershell cmd] ++ e2)%list in
      match result with
      | Some _ =>
          let e4 := (e3 ++ [SetStatus ("File copied: " ++ filename)])%list in
          match navigate_to_directory (wfs w) (nav_dest g) dest_dir with
          | Some d => (mkGui (nav_source g) d, e4)
          | None => (g, e4 ++ [ShowError "Copy Error" "TypeError";
                               SetStatus "File copy failed"])%list
          end
      | None => (g, e3 ++ [ShowError "Error" "Failed to copy file"])%list
      end
  end.

(** [cut_paste_file()] *)
Definition cut_paste_file (w : World) (sel : option Row) (g : Gui) : Gui * list Effect :=
  match transfer_prelude w sel g with
  | inl effs => (g, effs)
  | inr (e1, source_path, dest_dir, filename, dest_path) =>
      let cmd := ps_command "Move-Item" source_path dest_path in
      let (e2, result) := run_powershell_command (runner w) cmd in
      let e3 := (e1 ++ [RunPowershell cmd] ++ e2)%list in
      match result with
      | Some _ =>
          let e4 := (e3 ++ [SetStatus ("File moved: " ++ filename)])%list in
          let source_dir := dirname source_path in
          match navigate_to_directory (wfs w) (nav_source g) source_dir with
          | None => (g, e4 ++ [ShowError "Move Error" "TypeError";
                               SetStatus "File move failed"])%list
          | Some src =>
              match navigate_to_directory (wfs w) (nav_dest g) dest_dir with
              | Some d => (mkGui src d, e4)
              | None => (mkGui src (nav_dest g),
                         e4 ++ [ShowError "Move Error" "TypeError";
                                SetStatus "File move failed"])%list
              end
          end
      | None => (g, e3 ++ [ShowError "Error" "Failed to move file"])%list
      end
  end.

Definition is_run (e : Effect) : bool :=
  match e with RunPowershell _ => true | _ => false end.

Definition is_ask (e : Effect) : bool :=
  match e with AskYesNo _ _ => true | _ => false end.

(** ** Concrete file system of the spec's scenario *)

Definition drive_fs : FS :=
  mkFS (fun p => (p =? "/drive") || (p =? "/drive/Docs") || (p =? "/drive/Locked"))%bool
    (fun p =>
       if (p =? "/drive")%string then
         ScanOk [mkEntry "notes.txt" false; mkEntry ".hidden" false;
                 mkEntry "Docs" true; mkEntry "Locked" true]
       else if (p =? "/drive/Docs")%string then ScanOk [mkEntry "b.txt" false; mkEntry "A.txt" false]
       else if (p =? "/drive/Locked")%string then ScanPermissionError
       else ScanError ("[Errno 2] No such file or directory: '" ++ p ++ "'")).

Definition nav0 : Nav := mkNav [] 1 false [] None [].

Example dirname_ex : dirname "/drive/Docs" = "/drive" /\ dirname "/drive" = "/"
  /\ dirname "a/b//" = "a/b" /\ dirname "//x" = "//" /\ basename "/drive/a.txt" = "a.txt"
  /\ join "/drive" "a.txt" = "/drive/a.txt" /\ join "/" "a" = "/a".
Proof. vm_compute. repeat split. Qed.

Example scenario_ex :
  let s1 := populate_root drive_fs nav0 "/drive" in
  map text (view s1) = ["Docs"; "Locked"; "notes.txt"] /\
  navigation_history s1 = ["/drive"] /\
  match navigate_to_directory drive_fs s1 "/drive/Docs" with
  | Some s2 => map text (view s2) = [".."; "A.txt"; "b.txt"] /\
               navigation_history s2 = ["/drive"; "/drive/Docs"] /\
               map text (view (navigate_back drive_fs s2)) = ["Docs"; "Locked"; "notes.txt"]
  | None => False
  end.
Proof. vm_compute. repeat split. Qed.

(** * Proofs *)

(** ** Properties of the sort order *)

Module SortOrder.

Lemma string_compare_ot (s1 s2 : string) :
  String.compare s1 s2 = String_as_OT.compare s1 s2.
Proof.
  revert s2; induction s1 as [|c1 s1 IH]; intros [|c2 s2]; try reflexivity.
  all: simpl; change (Ascii_as_OT.compare c1 c2) with (Ascii.compare c1 c2);
    destruct (Ascii.compare c1 c2); auto.
Qed.

Lemma string_leb_iff (s1 s2 : string) :
  String.leb s1 s2 = true <-> s1 = s2 \/ String_as_OT.lt s1 s2.
Proof.
  unfold String.leb. rewrite string_compare_ot.
  destruct (String_as_OT.compare_spec s1 s2) as [H|H|H].
  - subst. split; auto.
  - split; auto.
  - split; [discriminate|]. intros [E|E]; exfalso.
    + subst. exact (StrictOrder_Irreflexive s2 H).
    + apply (StrictOrder_Irreflexive s1).
      eapply (StrictOrder_Transitive (R := String_as_OT.lt)); eauto.
Qed.

Lemma string_leb_trans (s1 s2 s3 : string) :
  String.leb s1 s2 = true -> String.leb s2 s3 = true -> String.leb s1 s3 = true.
Proof.
  rewrite !string_leb_iff. intros [E1|L1] [E2|L2]; subst; auto.
  right. eapply (StrictOrder_Transitive (R := String_as_OT.lt)); eauto.
Qed.

Lemma key_leb_total (k1 k2 : bool * string) : key_leb k1 k2 = true \/ key_leb k2 k1 = true.
Proof.
  destruct k1 as [[|] s1], k2 as [[|] s2]; simpl; auto using String.leb_total.
Qed.

Lemma key_leb_trans (k1 k2 k3 : bool * string) :
  key_leb k1 k2 = true -> key_leb k2 k3 = true -> key_leb k1 k3 = true.
Proof.
  destruct k1 as [[|] s1], k2 as [[|] s2], k3 as [[|] s3]; simpl;
    try discriminate; eauto using string_leb_trans.
Qed.

Lemma key_leb_antisym (k1 k2 : bool * string) :
  key_leb k1 k2 = true -> key_leb k2 k1 = true -> k1 = k2.
Proof.
  destruct k1 as [[|] s1], k2 as [[|] s2]; simpl; try discriminate;
    intros H1 H2; rewrite (String.leb_antisym _ _ H1 H2); reflexivity.
Qed.

(** [entry_leb e1 e2] says: [e1] is a directory or [e2] a file, and when
    both are of the same kind their lower-cased names are in order. *)
Lemma entry_leb_spec (e1 e2 : DirEntry) :
  entry_leb e1 e2 = true <->
  (is_dir e1 = true /\ is_dir e2 = false) \/
  (is_dir e1 = is_dir e2 /\ String.leb (lower (name e1)) (lower (name e2)) = true).
Proof.
  unfold entry_leb, sort_key. destruct (is_dir e1), (is_dir e2); simpl;
    intuition congruence.
Qed.

Definition entry_le (e1 e2 : DirEntry) : Prop := entry_leb e1 e2 = true.

Lemma insert_entry_perm (e : DirEntry) (l : list DirEntry) :
  Permutation (insert_entry e l) (e :: l).
Proof.
  induction l as [|y ys IH]; simpl; auto.
  destruct (entry_leb e y); auto.
  rewrite IH. apply perm_swap.
Qed.

Lemma stable_sort_perm (l : list DirEntry) : Permutation (stable_sort l) l.
Proof.
  induction l as [|x xs IH]; simpl; auto.
  rewrite insert_entry_perm. auto.
Qed.

Lemma insert_entry_sorted (e : DirEntry) (l : list DirEntry) :
  StronglySorted entry_le l -> StronglySorted entry_le (insert_entry e l).
Proof.
  induction 1 as [|y ys Hs IH Hf]; simpl.
  - repeat constructor.
  - destruct (entry_leb e y) eqn:Hey.
    + constructor; [constructor; auto|].
      constructor; auto.
      eapply Forall_impl; [|exact Hf]. intros z Hyz.
      unfold entry_le, entry_leb in *; eauto using key_leb_trans.
    + constructor; auto.
      eapply Permutation_Forall; [symmetry; apply insert_entry_perm|].
      constructor; auto.
      unfold entry_le, entry_leb in *.
      destruct (key_leb_total (sort_key e) (sort_key y)); congruence.
Qed.

Lemma stable_sort_sorted (l : list DirEntry) : StronglySorted entry_le (stable_sort l).
Proof.
  induction l; simpl; [constructor|]. apply insert_entry_sorted; auto.
Qed.

Lemma filter_sorted (f : DirEntry -> bool) (l : list DirEntry) :
  StronglySorted entry_le l -> StronglySorted entry_le (filter f l).
Proof.
  induction 1 as [|y ys Hs IH Hf]; simpl; [constructor|].
  destruct (f y); auto. constructor; auto.
  apply Forall_forall. intros z Hz. apply filter_In in Hz.
  rewrite Forall_forall in Hf. apply Hf. tauto.
Qed.

Lemma key_inj_on (l : list DirEntry) (x y : DirEntry) :
  NoDup (map sort_key l) -> In x l -> In y l -> sort_key x = sort_key y -> x = y.
Proof.
  induction l as [|z zs IH]; simpl; [tauto|].
  intros Hnd Hx Hy Hk. inversion Hnd as [|? ? Hnin Hnd']; subst.
  destruct Hx as [<-|Hx], Hy as [<-|Hy]; auto.
  - exfalso. apply Hnin. rewrite Hk. apply in_map. exact Hy.
  - exfalso. apply Hnin. rewrite <- Hk. apply in_map. exact Hx.
Qed.

(** Two sorted arrangements of the same entries coincide when no two
    entries share a sort key. *)
Lemma sorted_unique (l1 l2 : list DirEntry) :
  Permutation l1 l2 -> NoDup (map sort_key l1) ->
  StronglySorted entry_le l1 -> StronglySorted entry_le l2 -> l1 = l2.
Proof.
  revert l2; induction l1 as [|x xs IH]; intros l2 Hp Hnd S1 S2.
  - symmetry. apply Permutation_nil. exact Hp.
  - destruct l2 as [|y ys].
    + apply Permutation_sym, Permutation_nil in Hp. discriminate.
    + apply StronglySorted_inv in S1 as [S1 F1].
      apply StronglySorted_inv in S2 as [S2 F2].
      assert (Exy : x = y).
      { destruct (Permutation_in x Hp (or_introl eq_refl)) as [<-|Hx]; auto.
        assert (Hy : In y (x :: xs)) by (apply (Permutation_in y (Permutation_sym Hp)); left; auto).
        destruct Hy as [<-|Hy]; auto.
        rewrite Forall_forall in F1, F2.
        apply (key_inj_on (x :: xs)); simpl; auto.
        apply key_leb_antisym; [apply F1 | apply F2]; auto. }
      subst y. f_equal. apply IH; auto.
      * exact (Permutation_cons_inv Hp).
      * inversion Hnd; auto.
Qed.

Lemma stable_sort_canonical (es es' : list DirEntry) :
  Permutation es es' -> NoDup (map sort_key es) -> stable_sort es = stable_sort es'.
Proof.
  intros Hp Hnd. apply sorted_unique; auto using stable_sort_sorted.
  - rewrite !stable_sort_perm. exact Hp.
  - eapply Permutation_NoDup; [|exact Hnd].
    apply Permutation_map. symmetry. apply stable_sort_perm.
Qed.

End SortOrder.

(** ** The shape of a listing *)

Module Listing.

Lemma insert_rows_fields (s : Nav) (rs : list Row) :
  view (insert_rows s rs) = (view s ++ rs)%list /\
  hidden_files (insert_rows s rs) = hidden_files s /\
  populated_nodes (insert_rows s rs) = populated_nodes s /\
  current_path (insert_rows s rs) = current_path s /\
  navigation_history (insert_rows s rs) = navigation_history s.
Proof.
  revert s; induction rs as [|r rs IH]; intros s; simpl.
  - rewrite app_nil_r. auto.
  - destruct (IH (insert_row s r)) as (V & Hh & Hp & Hc & Hn).
    rewrite V, Hh, Hp, Hc, Hn. unfold insert_row, tree_insert, view; simpl.
    rewrite map_app, <- app_assoc. auto.
Qed.

Lemma insert_row_fields (s : Nav) (r : Row) :
  view (insert_row s r) = (view s ++ [r])%list /\
  hidden_files (insert_row s r) = hidden_files s /\
  populated_nodes (insert_row s r) = populated_nodes s /\
  current_path (insert_row s r) = current_path s /\
  navigation_history (insert_row s r) = navigation_history s.
Proof. apply (insert_rows_fields s [r]). Qed.

(** The rows shown before the listing proper: the ".." entry. *)
Definition back_rows (path h0 : string) : list Row :=
  if (path =? h0)%string then [] else [dotdot_row path].

(** What [_populate_directory] leaves in the view and in the state. *)
Lemma populate_directory_shape (fs : FS) (s : Nav) (parent : Node) (path : string) :
  let s' := populate_directory fs s parent path in
  navigation_history s' = navigation_history s /\
  hidden_files s' = hidden_files s /\
  match navigation_history s with
  | [] => view s' = [error_row "list index out of range"] /\
          current_path s' = current_path s /\ populated_nodes s' = populated_nodes s
  | h0 :: _ =>
      match scandir fs path with
      | ScanPermissionError =>
          view s' = (back_rows path h0 ++ [access_denied_row])%list /\
          current_path s' = current_path s /\ populated_nodes s' = populated_nodes s
      | ScanError msg =>
          view s' = (back_rows path h0 ++ [error_row msg])%list /\
          current_path s' = current_path s /\ populated_nodes s' = populated_nodes s
      | ScanOk es =>
          let rows := entry_rows (hidden_files s) path 0 (stable_sort es) in
          view s' = (back_rows path h0 ++ rows ++
                     match rows with [] => [empty_row] | _ => [] end)%list /\
          current_path s' = Some path
      end
  end.
Proof.
  unfold populate_directory.
  change (navigation_history (clear_tree s)) with (navigation_history s).
  destruct (navigation_history s) as [|h0 hs] eqn:Hh.
  - unfold insert_row, tree_insert, view; simpl. rewrite Hh. auto.
  - set (s0 := clear_tree s).
    assert (E0 : view s0 = [] /\ hidden_files s0 = hidden_files s /\
                 populated_nodes s0 = populated_nodes s /\
                 current_path s0 = current_path s /\
                 navigation_history s0 = h0 :: hs) by (subst s0; simpl; auto).
    set (s1 := if (path =? h0)%string then s0 else insert_row s0 (dotdot_row path)).
    assert (E1 : view s1 = back_rows path h0 /\ hidden_files s1 = hidden_files s /\
                 populated_nodes s1 = populated_nodes s /\
                 current_path s1 = current_path s /\
                 navigation_history s1 = h0 :: hs).
    { unfold back_rows; subst s1 s0. destruct (path =? h0)%string; simpl; auto. }
    clearbody s1. destruct E1 as (V1 & Hd1 & P1 & C1 & N1).
    destruct (scandir fs path) as [es| |msg].
    + rewrite Hd1. set (rows := entry_rows (hidden_files s) path 0 (stable_sort es)).
      destruct (insert_rows_fields s1 rows) as (V2 & Hd2 & P2 & C2 & N2).
      set (s2 := insert_rows s1 rows) in *.
      set (s3 := set_current (add_populated s2 parent) (Some path)).
      assert (E3 : view s3 = (view s1 ++ rows)%list /\ hidden_files s3 = hidden_files s /\
                   current_path s3 = Some path /\ navigation_history s3 = h0 :: hs).
      { subst s3; unfold view in *; simpl. repeat split; congruence. }
      destruct E3 as (V3 & Hd3 & C3 & N3).
      destruct rows as [|r rs] eqn:Hr.
      * destruct (insert_row_fields s3 empty_row) as (V4 & Hd4 & _ & C4 & N4).
        rewrite V4, V3, V1, Hd4, Hd3, C4, C3, N4, N3. simpl. rewrite app_nil_r. auto.
      * rewrite V3, V1, N3, Hd3, C3. rewrite app_nil_r. auto.
    + destruct (insert_row_fields s1 access_denied_row) as (V2 & F2).
      rewrite V2, V1. destruct F2 as (Hd2 & P2 & C2 & N2).
      rewrite Hd2, P2, C2, N2. auto.
    + destruct (insert_row_fields s1 (error_row msg)) as (V2 & F2).
      rewrite V2, V1. destruct F2 as (Hd2 & P2 & C2 & N2).
      rewrite Hd2, P2, C2, N2. auto.
Qed.

End Listing.

(** ** Navigation *)

Definition listing_ok (fs : FS) (p : string) : bool :=
  match scandir fs p with ScanOk _ => true | _ => false end.

(** Navigation steps that reach their target directory: [populate_root],
    a forward [navigate_to_directory] (the target is not the parent of the
    current directory) and [navigate_back] above the root, whose listing
    succeeds. *)
Inductive nav_step (fs : FS) : Nav -> Nav -> Prop :=
| step_root s p : nav_step fs s (populate_root fs s p)
| step_to s c p s' :
    isdir fs p = true -> current_path s = Some c -> p <> dirname c ->
    listing_ok fs p = true -> navigate_to_directory fs s p = Some s' ->
    nav_step fs s s'
| step_back s :
    1 < length (navigation_history s) ->
    listing_ok fs (last (removelast (navigation_history s)) "") = true ->
    nav_step fs s (navigate_back fs s).

Module NavFacts.

Lemma pd_history (fs : FS) (s : Nav) (n : Node) (p : string) :
  navigation_history (populate_directory fs s n p) = navigation_history s.
Proof. apply (Listing.populate_directory_shape fs s n p). Qed.

Lemma pd_current_ok (fs : FS) (s : Nav) (n : Node) (p : string) :
  navigation_history s <> [] -> listing_ok fs p = true ->
  current_path (populate_directory fs s n p) = Some p.
Proof.
  unfold listing_ok. intros Hn Hok.
  destruct (Listing.populate_directory_shape fs s n p) as (_ & _ & H).
  destruct (navigation_history s); [congruence|].
  destruct (scandir fs p); try discriminate. cbv zeta in H. tauto.
Qed.

Lemma pd_current_fail (fs : FS) (s : Nav) (n : Node) (p : string) :
  listing_ok fs p = false ->
  current_path (populate_directory fs s n p) = current_path s.
Proof.
  unfold listing_ok. intros Hko.
  destruct (Listing.populate_directory_shape fs s n p) as (_ & _ & H).
  destruct (navigation_history s); [tauto|].
  destruct (scandir fs p); try discriminate; tauto.
Qed.

(** [populate_root] lists [path] with the history [[path]] and the current
    path already set. *)
Lemma populate_root_unfold (fs : FS) (s : Nav) (path : string) :
  exists s3 n,
    populate_root fs s path = add_populated (populate_directory fs s3 n path) n /\
    navigation_history s3 = [path] /\ current_path s3 = Some path /\
    view s3 = [root_row path] /\ hidden_files s3 = hidden_files s.
Proof.
  unfold populate_root. simpl. rewrite String.eqb_refl.
  do 2 eexists. split; [reflexivity|]. simpl. auto.
Qed.

Lemma add_populated_fields (s : Nav) (n : Node) :
  view (add_populated s n) = view s /\
  hidden_files (add_populated s n) = hidden_files s /\
  current_path (add_populated s n) = current_path s /\
  navigation_history (add_populated s n) = navigation_history s.
Proof. simpl. auto. Qed.

Lemma populate_root_state (fs : FS) (s : Nav) (path : string) :
  navigation_history (populate_root fs s path) = [path] /\
  current_path (populate_root fs s path) = Some path.
Proof.
  destruct (populate_root_unfold fs s path) as (s3 & n & -> & Hh & Hc & _).
  destruct (add_populated_fields (populate_directory fs s3 n path) n) as (_ & _ & -> & ->).
  rewrite pd_history, Hh. split; auto.
  destruct (listing_ok fs path) eqn:Hok.
  - apply pd_current_ok; [rewrite Hh; discriminate | exact Hok].
  - rewrite pd_current_fail; auto.
Qed.

Lemma navigate_to_forward (fs : FS) (s : Nav) (c p : string) :
  isdir fs p = true -> current_path s = Some c -> p <> dirname c ->
  navigate_to_directory fs s p =
  Some (populate_directory fs (set_history s (navigation_history s ++ [p])%list) NRoot p).
Proof.
  intros Hd Hc Hne. unfold navigate_to_directory. rewrite Hd, Hc.
  apply String.eqb_neq in Hne. rewrite Hne. reflexivity.
Qed.

Lemma navigate_back_above_root (fs : FS) (s : Nav) (h : list string) (c x : string) :
  navigation_history s = (h ++ [c; x])%list ->
  navigate_back fs s = populate_directory fs (set_history s (h ++ [c])%list) NRoot c.
Proof.
  intros Hh. unfold navigate_back. rewrite Hh.
  replace (Nat.ltb 1 (length (h ++ [c; x]))) with true
    by (symmetry; apply Nat.ltb_lt; rewrite length_app; simpl; lia).
  replace (h ++ [c; x])%list with ((h ++ [c]) ++ [x])%list by (rewrite <- app_assoc; reflexivity).
  rewrite removelast_last, last_last. reflexivity.
Qed.

End NavFacts.

(** Concrete states of the spec's scenario. *)
Definition s_root : Nav := populate_root drive_fs nav0 "/drive".

Definition s_docs : Nav :=
  match navigate_to_directory drive_fs s_root "/drive/Docs" with
  | Some s => s
  | None => s_root
  end.

(** ** Claims about navigation *)

(** C1 (counterexample).  After [populate_root("/drive")] and
    [navigate_to_directory("/drive/Docs")], navigating to the existing
    directory "/drive" is taken for a "go up" ("/drive" is the dirname of the
    current path): [current_path] becomes "/drive" while the last element of
    [history] stays "/drive/Docs". *)
Lemma C1_counterexample :
  exists s3,
    isdir drive_fs "/drive" = true /\
    navigate_to_directory drive_fs s_docs "/drive" = Some s3 /\
    navigation_history s3 = ["/drive"; "/drive/Docs"] /\
    current_path s3 = Some "/drive" /\
    current_path s3 <> Some (last (navigation_history s3) "").
Proof.
  eexists. split; [reflexivity|]. split; [vm_compute; reflexivity|].
  vm_compute. split; [reflexivity|]. split; [reflexivity|]. discriminate.
Qed.

(** C1 (amended).  After every navigation step that reaches its target
    (populate_root; navigate_to_directory to an existing directory that is
    not the parent of the current path, whose listing succeeds;
    navigate_back with a history longer than 1, whose listing succeeds),
    [history] is non-empty and its last element is [current_path]. *)
Theorem history_last_is_current (fs : FS) (s s' : Nav) :
  nav_step fs s s' ->
  navigation_history s' <> [] /\
  current_path s' = Some (last (navigation_history s') "").
Proof.
  intros Hs. destruct Hs as [s p | s c p s' Hd Hc Hne Hok Hto | s Hlen Hok].
  - destruct (NavFacts.populate_root_state fs s p) as [-> ->]. split; [discriminate|auto].
  - rewrite (NavFacts.navigate_to_forward fs s c p Hd Hc Hne) in Hto.
    injection Hto as <-. rewrite NavFacts.pd_history. simpl.
    rewrite last_last. split; [destruct (navigation_history s); discriminate|].
    apply NavFacts.pd_current_ok; [simpl; destruct (navigation_history s); discriminate|exact Hok].
  - unfold navigate_back. apply Nat.ltb_lt in Hlen as Hlt. rewrite Hlt.
    rewrite NavFacts.pd_history. simpl.
    assert (Hne : removelast (navigation_history s) <> []).
    { destruct (navigation_history s) as [|a [|b l]]; simpl in *; try lia. discriminate. }
    split; auto. apply NavFacts.pd_current_ok; simpl; auto.
Qed.

Lemma history_last_is_current_witness :
  nav_step drive_fs s_root s_docs /\
  navigation_history s_docs <> [] /\
  current_path s_docs = Some (last (navigation_history s_docs) "").
Proof.
  assert (H : nav_step drive_fs s_root s_docs).
  { apply (step_to drive_fs s_root "/drive" "/drive/Docs" s_docs).
    - reflexivity.
    - vm_compute. reflexivity.
    - vm_compute. discriminate.
    - vm_compute. reflexivity.
    - vm_compute. reflexivity. }
  split; [exact H|]. exact (history_last_is_current drive_fs s_root s_docs H).
Defined.

(** C2 (counterexample).  From "/drive/Docs" (reached from the root
    "/drive"), [navigate_to_directory("/drive")] followed by
    [navigate_back()] ends in "/drive", not in "/drive/Docs". *)
Lemma C2_counterexample :
  exists s3,
    current_path s_docs = Some "/drive/Docs" /\
    isdir drive_fs "/drive" = true /\
    navigate_to_directory drive_fs s_docs "/drive" = Some s3 /\
    current_path (navigate_back drive_fs s3) = Some "/drive" /\
    current_path (navigate_back drive_fs s3) <> current_path s_docs.
Proof.
  eexists. split; [vm_compute; reflexivity|]. split; [reflexivity|].
  split; [vm_compute; reflexivity|]. vm_compute. split; [reflexivity|]. discriminate.
Qed.

(** C2 (amended).  When [history] ends with [current_path = c], [X] is an
    existing directory other than [dirname(c)], and [c] can still be
    listed, [navigate_to_directory(X)] followed by [navigate_back()]
    restores [current_path] to [c]. *)
Theorem navigate_to_then_back (fs : FS) (s s2 : Nav) (h : list string) (c x : string) :
  navigation_history s = (h ++ [c])%list ->
  current_path s = Some c ->
  isdir fs x = true ->
  x <> dirname c ->
  listing_ok fs c = true ->
  navigate_to_directory fs s x = Some s2 ->
  current_path (navigate_back fs s2) = Some c.
Proof.
  intros Hh Hc Hd Hne Hok Hto.
  rewrite (NavFacts.navigate_to_forward fs s c x Hd Hc Hne) in Hto.
  injection Hto as <-.
  rewrite (NavFacts.navigate_back_above_root fs _ h c x).
  - apply NavFacts.pd_current_ok; [simpl; destruct h; discriminate | exact Hok].
  - rewrite NavFacts.pd_history. simpl. rewrite Hh, <- app_assoc. reflexivity.
Qed.

Lemma navigate_to_then_back_witness :
  navigation_history s_root = ([] ++ ["/drive"])%list /\
  current_path (navigate_back drive_fs s_docs) = Some "/drive".
Proof.
  split; [vm_compute; reflexivity|].
  apply (navigate_to_then_back drive_fs s_root s_docs [] "/drive" "/drive/Docs").
  - vm_compute. reflexivity.
  - vm_compute. reflexivity.
  - reflexivity.
  - vm_compute. discriminate.
  - reflexivity.
  - vm_compute. reflexivity.
Defined.

(** C3.  [populate_root(P)] always yields [history == [P]] and
    [current_path == P]; when listing [P] is denied the view is the single
    "Access Denied" row, on any other listing error the single
    "Error: <message>" row; nothing is raised. *)
Theorem populate_root_resets (fs : FS) (s : Nav) (p : string) :
  let s' := populate_root fs s p in
  navigation_history s' = [p] /\
  current_path s' = Some p /\
  match scandir fs p with
  | ScanPermissionError => view s' = [access_denied_row]
  | ScanError msg => view s' = [error_row msg]
  | ScanOk _ => True
  end.
Proof.
  intros s'. destruct (NavFacts.populate_root_state fs s p) as [Hh Hc].
  split; [exact Hh|]. split; [exact Hc|].
  subst s'. destruct (NavFacts.populate_root_unfold fs s p) as (s3 & n & -> & Hh3 & _).
  destruct (NavFacts.add_populated_fields (populate_directory fs s3 n p) n) as (-> & _).
  destruct (Listing.populate_directory_shape fs s3 n p) as (_ & _ & H).
  rewrite Hh3 in H. unfold Listing.back_rows in H. rewrite String.eqb_refl in H.
  destruct (scandir fs p); tauto.
Qed.

(** C5.  A listing never changes [history]: [_populate_directory] leaves it
    as it was before the listing, and when the listing fails it leaves
    everything but the view (and the tree's iid counter) unchanged.  The
    history each operation produces is fixed before it lists anything and
    does not depend on the listing's outcome. *)
Theorem listing_error_keeps_history (fs : FS) (s : Nav) (n : Node) (p : string) :
  (let s' := populate_directory fs s n p in
   navigation_history s' = navigation_history s /\
   match scandir fs p with
   | ScanOk _ => True
   | _ => hidden_files s' = hidden_files s /\ populated_nodes s' = populated_nodes s /\
          current_path s' = current_path s
   end) /\
  navigation_history (populate_root fs s p) = [p] /\
  option_map navigation_history (navigate_to_directory fs s p) =
    (if isdir fs p then
       match current_path s with
       | None => None
       | Some c => Some (if (p =? dirname c)%string then navigation_history s
                         else (navigation_history s ++ [p])%list)
       end
     else Some (navigation_history s)) /\
  navigation_history (navigate_back fs s) =
    (if Nat.ltb 1 (length (navigation_history s))
     then removelast (navigation_history s) else navigation_history s).
Proof.
  split; [|split; [|split]].
  - destruct (Listing.populate_directory_shape fs s n p) as (Hh & Hd & H).
    split; [exact Hh|].
    destruct (navigation_history s); destruct (scandir fs p); tauto.
  - apply NavFacts.populate_root_state.
  - unfold navigate_to_directory. destruct (isdir fs p); [|reflexivity].
    destruct (current_path s) as [c|]; [|reflexivity]. simpl.
    rewrite NavFacts.pd_history. destruct (p =? dirname c)%string; reflexivity.
  - unfold navigate_back. destruct (Nat.ltb 1 _); [|reflexivity].
    rewrite NavFacts.pd_history. reflexivity.
Qed.

(** C6.  [navigate_back()] with a history of length 1 is a no-op: the
    state, [current_path] and [history] included, is unchanged. *)
Theorem navigate_back_at_root (fs : FS) (s : Nav) :
  length (navigation_history s) = 1 ->
  navigate_back fs s = s /\
  current_path (navigate_back fs s) = current_path s /\
  navigation_history (navigate_back fs s) = navigation_history s.
Proof.
  intros Hl. assert (E : navigate_back fs s = s).
  { unfold navigate_back. rewrite Hl. reflexivity. }
  rewrite E. auto.
Qed.

Lemma navigate_back_at_root_witness :
  length (navigation_history s_root) = 1 /\ navigate_back drive_fs s_root = s_root.
Proof.
  assert (H : length (navigation_history s_root) = 1) by (vm_compute; reflexivity).
  split; [exact H|]. apply (navigate_back_at_root drive_fs s_root H).
Defined.

(** ** Claims about a listing *)

(** The entries that survive the hidden-file filter, in order. *)
Definition visible (hidden : bool) (es : list DirEntry) : list DirEntry :=
  filter (fun e => negb (negb hidden && is_hidden_name (name e))) es.

(** The rows of listed entries, numbered from [count]. *)
Fixpoint rows_of (path : string) (count : nat) (l : list DirEntry) : list Row :=
  match l with
  | [] => []
  | e :: l' => entry_row path count e :: rows_of path (S count) l'
  end.

(** Equality of sort keys: same kind and same lower-cased name. *)
Definition key_eqb (k1 k2 : bool * string) : bool :=
  Bool.eqb (fst k1) (fst k2) && String.eqb (snd k1) (snd k2).

(** The entries of [l] whose sort key is [k], in the order of [l]. *)
Definition same_key (k : bool * string) (l : list DirEntry) : list DirEntry :=
  filter (fun e => key_eqb (sort_key e) k) l.

Module ListingFacts.

Lemma key_eqb_spec (k1 k2 : bool * string) : key_eqb k1 k2 = true <-> k1 = k2.
Proof.
  destruct k1 as [b1 s1], k2 as [b2 s2]; unfold key_eqb; simpl.
  rewrite andb_true_iff, Bool.eqb_true_iff, String.eqb_eq.
  split; [intros [-> ->]; reflexivity|intros H; injection H as -> ->; auto].
Qed.

Lemma key_leb_refl (k : bool * string) : key_leb k k = true.
Proof.
  destruct k as [b s']; simpl. rewrite Bool.eqb_reflx.
  apply SortOrder.string_leb_iff. left; reflexivity.
Qed.

(** Inserting [e] puts it after every entry with a strictly smaller key,
    and so before every entry that shares its key. *)
Lemma same_key_insert (k : bool * string) (e : DirEntry) (l : list DirEntry) :
  same_key k (insert_entry e l) = same_key k (e :: l).
Proof.
  unfold same_key. induction l as [|y ys IH]; simpl; auto.
  destruct (entry_leb e y) eqn:Hey; simpl; auto.
  rewrite IH. simpl.
  destruct (key_eqb (sort_key e) k) eqn:He, (key_eqb (sort_key y) k) eqn:Hy; auto.
  exfalso. apply key_eqb_spec in He, Hy.
  unfold entry_leb in Hey. rewrite He, <- Hy, key_leb_refl in Hey. discriminate.
Qed.

(** [stable_sort] is stable: entries sharing a key keep their order. *)
Lemma same_key_sort (k : bool * string) (l : list DirEntry) :
  same_key k (stable_sort l) = same_key k l.
Proof.
  induction l as [|x xs IH]; simpl; auto.
  rewrite same_key_insert. unfold same_key in *. simpl.
  destruct (key_eqb (sort_key x) k); rewrite IH; reflexivity.
Qed.

Lemma filter_comm {A} (f g : A -> bool) (l : list A) :
  filter f (filter g l) = filter g (filter f l).
Proof.
  induction l as [|x l IH]; simpl; auto.
  destruct (g x) eqn:Hg, (f x) eqn:Hf; simpl; rewrite ?Hg, ?Hf, IH; reflexivity.
Qed.

Lemma entry_rows_visible (hidden : bool) (path : string) (c : nat) (es : list DirEntry) :
  entry_rows hidden path c es = rows_of path c (visible hidden es).
Proof.
  revert c; induction es as [|e es IH]; intros c; simpl; auto.
  destruct (negb hidden && is_hidden_name (name e)); simpl; rewrite IH; auto.
Qed.

Lemma visible_In (hidden : bool) (es : list DirEntry) (e : DirEntry) :
  In e (visible hidden es) <->
  In e es /\ (hidden = true \/ is_hidden_name (name e) = false).
Proof.
  unfold visible. rewrite filter_In.
  destruct hidden, (is_hidden_name (name e)); simpl; intuition discriminate.
Qed.

Lemma visible_sorted_In (hidden : bool) (es : list DirEntry) (e : DirEntry) :
  In e (visible hidden (stable_sort es)) <->
  In e es /\ (hidden = true \/ is_hidden_name (name e) = false).
Proof.
  rewrite visible_In. split; intros [H1 H2]; split; auto.
  - eapply Permutation_in; [apply SortOrder.stable_sort_perm | exact H1].
  - eapply Permutation_in; [symmetry; apply SortOrder.stable_sort_perm | exact H1].
Qed.

Lemma strongly_sorted_nth {A} (R : A -> A -> Prop) (l : list A) (i j : nat) (a b : A) :
  StronglySorted R l -> i < j -> nth_error l i = Some a -> nth_error l j = Some b -> R a b.
Proof.
  intros S; revert i j; induction S as [|x l S IH F]; intros i j Hij Hi Hj.
  - destruct i; discriminate.
  - destruct i as [|i], j as [|j]; simpl in *; try lia.
    + injection Hi as <-. rewrite Forall_forall in F. apply F.
      eapply nth_error_In; eauto.
    + apply (IH i j); auto; lia.
Qed.

End ListingFacts.

Definition readme_fs (es : list DirEntry) : FS := mkFS (fun _ => true) (fun _ => ScanOk es).

(** C4 (counterexample).  Two files whose names differ only in case have
    the same sort key; the stable sort keeps them in on-disk order, so the
    listing of "/r" depends on that order. *)
Lemma C4_counterexample :
  let es := [mkEntry "README" false; mkEntry "readme" false] in
  let es' := [mkEntry "readme" false; mkEntry "README" false] in
  Permutation es es' /\
  map text (view (populate_root (readme_fs es) nav0 "/r")) = ["README"; "readme"] /\
  map text (view (populate_root (readme_fs es') nav0 "/r")) = ["readme"; "README"].
Proof.
  split; [apply perm_swap|]. vm_compute. split; reflexivity.
Qed.

(** C4 (amended).  Let [L] be the entries returned by [os.scandir(path)],
    sorted by [(not is_dir, name.lower())] and then stripped of the
    dot-prefixed ones unless [show_hidden].  The view is the optional ".."
    row, then one row per entry of [L] in the order of [L] (or the single
    "(Empty)" row when [L] is empty).  [L] holds exactly the listed entries
    that are not dot-prefixed (all of them if [show_hidden]); directories
    come before files and entries of the same kind are in case-insensitive
    name order; entries sharing their kind and lower-cased name keep their
    on-disk order.  When no two entries share kind and lower-cased name,
    any other enumeration order of the same entries gives the same view. *)
Theorem listing_order (fs : FS) (s : Nav) (n : Node) (path h0 : string)
    (hs : list string) (es : list DirEntry) :
  navigation_history s = h0 :: hs ->
  scandir fs path = ScanOk es ->
  let L := visible (hidden_files s) (stable_sort es) in
  view (populate_directory fs s n path) =
    (Listing.back_rows path h0 ++ rows_of path 0 L ++
     match L with [] => [empty_row] | _ => [] end)%list /\
  (forall e, In e L <-> In e es /\ (hidden_files s = true \/ is_hidden_name (name e) = false)) /\
  (forall i j ei ej, i < j -> nth_error L i = Some ei -> nth_error L j = Some ej ->
     (is_dir ei = true /\ is_dir ej = false) \/
     (is_dir ei = is_dir ej /\ String.leb (lower (name ei)) (lower (name ej)) = true)) /\
  (forall k, same_key k L = same_key k (visible (hidden_files s) es)) /\
  (forall fs' es', scandir fs' path = ScanOk es' -> Permutation es es' ->
     NoDup (map sort_key es) ->
     view (populate_directory fs' s n path) = view (populate_directory fs s n path)).
Proof.
  intros Hh Hs L.
  assert (V : forall fs0 es0, scandir fs0 path = ScanOk es0 ->
            view (populate_directory fs0 s n path) =
            (Listing.back_rows path h0 ++ rows_of path 0 (visible (hidden_files s) (stable_sort es0)) ++
             match visible (hidden_files s) (stable_sort es0) with
             | [] => [empty_row] | _ => [] end)%list).
  { intros fs0 es0 Hs0.
    destruct (Listing.populate_directory_shape fs0 s n path) as (_ & _ & H).
    rewrite Hh, Hs0 in H. cbv zeta in H. destruct H as [-> _].
    rewrite ListingFacts.entry_rows_visible.
    destruct (visible (hidden_files s) (stable_sort es0)); reflexivity. }
  split; [apply V; exact Hs|].
  split; [intros e; apply ListingFacts.visible_sorted_In|].
  split; [|split].
  - intros i j ei ej Hij Hi Hj. apply SortOrder.entry_leb_spec.
    apply (ListingFacts.strongly_sorted_nth SortOrder.entry_le L i j); auto.
    apply SortOrder.filter_sorted, SortOrder.stable_sort_sorted.
  - intros k. unfold L, same_key, visible.
    rewrite ListingFacts.filter_comm.
    change (filter (fun e => key_eqb (sort_key e) k) (stable_sort es)) with
      (same_key k (stable_sort es)).
    rewrite ListingFacts.same_key_sort. unfold same_key.
    apply ListingFacts.filter_comm.
  - intros fs' es' Hs' Hp Hnd. rewrite (V fs' es' Hs'), (V fs es Hs).
    rewrite (SortOrder.stable_sort_canonical es es' Hp Hnd). reflexivity.
Qed.

Definition drive_fs_rev : FS :=
  mkFS (isdir drive_fs)
    (fun p => match scandir drive_fs p with
              | ScanOk es => ScanOk (rev es)
              | r => r
              end).

Lemma listing_order_witness :
  view (populate_directory drive_fs_rev s_root NRoot "/drive") =
  view (populate_directory drive_fs s_root NRoot "/drive").
Proof.
  refine (proj2 (proj2 (proj2 (proj2 (listing_order drive_fs s_root NRoot "/drive" "/drive" []
    [mkEntry "notes.txt" false; mkEntry ".hidden" false; mkEntry "Docs" true; mkEntry "Locked" true]
    _ _)))) drive_fs_rev
    [mkEntry "Locked" true; mkEntry "Docs" true; mkEntry ".hidden" false; mkEntry "notes.txt" false]
    _ _ _).
  - reflexivity.
  - vm_compute. reflexivity.
  - reflexivity.
  - apply Permutation_rev.
  - vm_compute. repeat constructor; simpl; intuition discriminate.
Defined.

(** C7.  A readable directory of which no entry survives the hidden-file
    filter is shown as exactly one "(Empty)" row, whose path value is empty,
    after the optional ".." row: no error row and not an empty view. *)
Theorem empty_listing_placeholder (fs : FS) (s : Nav) (n : Node) (path h0 : string)
    (hs : list string) (es : list DirEntry) :
  navigation_history s = h0 :: hs ->
  scandir fs path = ScanOk es ->
  visible (hidden_files s) es = [] ->
  view (populate_directory fs s n path) = (Listing.back_rows path h0 ++ [empty_row])%list /\
  filter (fun r => (text r =? "(Empty)")%string) (view (populate_directory fs s n path))
    = [empty_row] /\
  text empty_row = "(Empty)" /\ fst (values empty_row) = "".
Proof.
  intros Hh Hs Hv.
  assert (E : visible (hidden_files s) (stable_sort es) = []).
  { destruct (visible (hidden_files s) (stable_sort es)) as [|e l] eqn:He; auto.
    assert (Hin : In e (visible (hidden_files s) es)).
    { apply ListingFacts.visible_In. apply ListingFacts.visible_sorted_In.
      rewrite He. left; auto. }
    rewrite Hv in Hin. destruct Hin. }
  destruct (Listing.populate_directory_shape fs s n path) as (_ & _ & H).
  rewrite Hh, Hs in H. cbv zeta in H. destruct H as [V _].
  rewrite ListingFacts.entry_rows_visible, E in V. simpl in V.
  rewrite V. split; [reflexivity|]. split; [|split; reflexivity].
  unfold Listing.back_rows. destruct (path =? h0)%string; reflexivity.
Qed.

Definition empty_fs : FS :=
  mkFS (fun _ => true) (fun _ => ScanOk [mkEntry ".git" true]).

Lemma empty_listing_placeholder_witness :
  view (populate_directory empty_fs s_root NRoot "/drive/x") =
  [dotdot_row "/drive/x"; empty_row].
Proof.
  refine (proj1 (empty_listing_placeholder empty_fs s_root NRoot "/drive/x" "/drive" []
    [mkEntry ".git" true] _ _ _)).
  - vm_compute. reflexivity.
  - reflexivity.
  - vm_compute. reflexivity.
Defined.

Lemma rows_of_head_text (path : string) (c : nat) (l : list DirEntry) (r : Row) (rest : list Row) :
  rows_of path c l = r :: rest -> exists e, In e l /\ text r = name e.
Proof.
  destruct l as [|e l]; simpl; [discriminate|]. intros H; injection H as <- _.
  exists e. simpl; auto.
Qed.

(** C9.  With a non-empty history, the first row of a listing is a ".."
    row exactly when the listed path differs from [history[0]]; that row is
    the synthetic one: its path value is [dirname(path)], it is of type
    "Directory" with the tag "directory", and a double-click on it runs
    [navigate_back], not [navigate_to_directory].  (A directory scan never
    yields an entry named "..".) *)
Theorem dotdot_entry (fs : FS) (s : Nav) (n : Node) (path h0 : string) (hs : list string) :
  navigation_history s = h0 :: hs ->
  (forall es, scandir fs path = ScanOk es -> forall e, In e es -> name e <> "..") ->
  let v := view (populate_directory fs s n path) in
  ((exists r rest, v = r :: rest /\ text r = "..") <-> path <> h0) /\
  (path <> h0 -> hd_error v = Some (dotdot_row path)) /\
  values (dotdot_row path) = (dirname path, "Directory") /\
  tags (dotdot_row path) = ["directory"] /\
  on_double_click (dotdot_row path) = DoNavigateBack.
Proof.
  intros Hh Hnames v.
  assert (Hne : path <> h0 -> exists rest, v = dotdot_row path :: rest).
  { intros Hp. apply String.eqb_neq in Hp.
    destruct (Listing.populate_directory_shape fs s n path) as (_ & _ & H).
    unfold Listing.back_rows in H. rewrite Hh, Hp in H.
    subst v. destruct (scandir fs path); cbv zeta in H; destruct H as [-> _];
      eexists; reflexivity. }
  split; [|split; [|split; [reflexivity|split; reflexivity]]].
  - split.
    + intros (r & rest & Hv & Ht) Hp. subst h0.
      destruct (Listing.populate_directory_shape fs s n path) as (_ & _ & H).
      unfold Listing.back_rows in H. rewrite Hh, String.eqb_refl in H. simpl in H.
      subst v. destruct (scandir fs path) as [es| |msg] eqn:Hs; cbv zeta in H;
        destruct H as [V _]; rewrite V in Hv.
      * rewrite ListingFacts.entry_rows_visible in Hv.
        destruct (rows_of path 0 (visible (hidden_files s) (stable_sort es))) as [|r0 rs] eqn:Hr.
        -- simpl in Hv. injection Hv as <- _. discriminate.
        -- simpl in Hv. injection Hv as -> _.
           destruct (rows_of_head_text _ _ _ _ _ Hr) as (e & Hin & Hte).
           apply ListingFacts.visible_sorted_In in Hin as [Hin _].
           apply (Hnames es eq_refl e Hin). rewrite <- Hte. exact Ht.
      * injection Hv as <- _. discriminate.
      * injection Hv as <- _. discriminate.
    + intros Hp. destruct (Hne Hp) as (rest & ->). exists (dotdot_row path), rest. auto.
  - intros Hp. destruct (Hne Hp) as (rest & ->). reflexivity.
Qed.

Lemma dotdot_entry_witness :
  hd_error (view s_docs) = Some (dotdot_row "/drive/Docs").
Proof.
  change s_docs with (populate_directory drive_fs
    (set_history s_root (navigation_history s_root ++ ["/drive/Docs"])%list) NRoot "/drive/Docs").
  refine (proj1 (proj2 (dotdot_entry drive_fs _ NRoot "/drive/Docs" "/drive" ["/drive/Docs"] _ _)) _).
  - vm_compute. reflexivity.
  - intros es Hs e Hin. vm_compute in Hs. injection Hs as <-.
    simpl in Hin. intuition (subst; discriminate).
  - vm_compute. discriminate.
Defined.

(** ** Claims about the copy and move handlers *)

Lemma transfer_prelude_exists (w : World) (r : Row) (g : Gui) (dest_dir : string) :
  let sp := fst (values r) in
  sp <> "" -> current_path (nav_dest g) = Some dest_dir -> dest_dir <> "" ->
  exists_path w (join dest_dir (basename sp)) = true ->
  transfer_prelude w (Some r) g =
    if confirm w then
      inr ([AskYesNo "File Exists" (exists_message (basename sp))], sp, dest_dir,
           basename sp, join dest_dir (basename sp))
    else inl [AskYesNo "File Exists" (exists_message (basename sp))].
Proof.
  intros sp Hsp Hc Hd He. unfold transfer_prelude. simpl.
  apply String.eqb_neq in Hsp, Hd. fold sp. rewrite Hsp, Hc, Hd, He. reflexivity.
Qed.

(** C8.  When [join(dest_dir, basename(source_path))] exists, copy and move
    first ask the user ("File Exists"); when the user declines, the
    handler returns after that question: no command reaches the external
    runner and both panes' navigators, views included, are unchanged. *)
Theorem overwrite_needs_confirmation (w : World) (r : Row) (g : Gui) (dest_dir : string) :
  let sp := fst (values r) in
  let ask := AskYesNo "File Exists" (exists_message (basename sp)) in
  sp <> "" -> current_path (nav_dest g) = Some dest_dir -> dest_dir <> "" ->
  exists_path w (join dest_dir (basename sp)) = true ->
  (exists rest, snd (copy_file w (Some r) g) = ask :: rest) /\
  (exists rest, snd (cut_paste_file w (Some r) g) = ask :: rest) /\
  (confirm w = false ->
   copy_file w (Some r) g = (g, [ask]) /\ cut_paste_file w (Some r) g = (g, [ask])).
Proof.
  intros sp ask Hsp Hc Hd He.
  pose proof (transfer_prelude_exists w r g dest_dir Hsp Hc Hd He) as Hpre.
  unfold copy_file, cut_paste_file. rewrite Hpre. fold sp ask.
  destruct (confirm w).
  - split; [|split; [|discriminate]].
    + destruct (run_powershell_command (runner w) _) as [e2 [res|]].
      * destruct (navigate_to_directory _ _ _); eexists; reflexivity.
      * eexists; reflexivity.
    + destruct (run_powershell_command (runner w) _) as [e2 [res|]].
      * destruct (navigate_to_directory _ (nav_source g) _);
          [destruct (navigate_to_directory _ (nav_dest g) _)|]; eexists; reflexivity.
      * eexists; reflexivity.
  - split; [eexists; reflexivity|]. split; [eexists; reflexivity|]. auto.
Qed.

Definition decline_world : World :=
  mkWorld drive_fs (fun _ => true) (fun _ => ("", "")) false.

Definition notes_row : Row := mkRow "notes.txt" ("/drive/notes.txt", "File") ["file"; "evenrow"].

Lemma overwrite_needs_confirmation_witness :
  copy_file decline_world (Some notes_row) (mkGui s_root s_root) =
  (mkGui s_root s_root, [AskYesNo "File Exists" (exists_message "notes.txt")]).
Proof.
  refine (proj1 (proj2 (proj2 (overwrite_needs_confirmation decline_world notes_row
    (mkGui s_root s_root) "/drive" _ _ _ _)) _)).
  - discriminate.
  - vm_compute. reflexivity.
  - discriminate.
  - reflexivity.
  - reflexivity.
Defined.

(** C10.  Refreshing a pane with [navigate_to_directory(current_path)], as
    the copy and move success handlers do, appends [current_path] to
    [history] again when it is not its own dirname: [history] then ends with
    two equal entries, and the next [navigate_back()] re-lists the same
    directory and stays on it. *)
Theorem refresh_duplicates_history (fs : FS) (s : Nav) (h : list string) (p : string) :
  isdir fs p = true ->
  current_path s = Some p ->
  navigation_history s = (h ++ [p])%list ->
  p <> dirname p ->
  exists s',
    navigate_to_directory fs s p = Some s' /\
    navigation_history s' = (h ++ [p; p])%list /\
    navigate_back fs s' = populate_directory fs (set_history s' (h ++ [p])%list) NRoot p /\
    current_path (navigate_back fs s') = Some p.
Proof.
  intros Hd Hc Hh Hne.
  eexists. split; [apply (NavFacts.navigate_to_forward fs s p p Hd Hc Hne)|].
  assert (Hh' : navigation_history
      (populate_directory fs (set_history s (navigation_history s ++ [p])%list) NRoot p)
      = (h ++ [p; p])%list).
  { rewrite NavFacts.pd_history. simpl. rewrite Hh, <- app_assoc. reflexivity. }
  split; [exact Hh'|].
  rewrite (NavFacts.navigate_back_above_root fs _ h p p Hh').
  split; [reflexivity|].
  destruct (listing_ok fs p) eqn:Hok.
  - apply NavFacts.pd_current_ok; [simpl; destruct h; discriminate | exact Hok].
  - rewrite NavFacts.pd_current_fail by exact Hok. simpl.
    destruct (listing_ok fs p) eqn:Hok2; [discriminate|].
    rewrite NavFacts.pd_current_fail by exact Hok2. simpl. exact Hc.
Qed.

Lemma refresh_duplicates_history_witness :
  navigation_history s_docs = ["/drive"; "/drive/Docs"] /\
  exists s',
    navigate_to_directory drive_fs s_docs "/drive/Docs" = Some s' /\
    navigation_history s' = ["/drive"; "/drive/Docs"; "/drive/Docs"] /\
    navigate_back drive_fs s' =
      populate_directory drive_fs (set_history s' ["/drive"; "/drive/Docs"]) NRoot "/drive/Docs" /\
    current_path (navigate_back drive_fs s') = Some "/drive/Docs".
Proof.
  split; [vm_compute; reflexivity|].
  apply (refresh_duplicates_history drive_fs s_docs ["/drive"] "/drive/Docs").
  - reflexivity.
  - vm_compute. reflexivity.
  - vm_compute. reflexivity.
  - vm_compute. discriminate.
Defined.

(** * Further code of staging_setup_utility.py *)

(** ** Python string helpers used by the hardware scan *)

(** [str.isspace] on U+0000..U+00FF: \t \n \v \f \r, \x1c-\x1f, the
    space, U+0085 (next line) and U+00A0 (no-break space); these are also
    the separators of [str.split()] and the characters [str.strip()]
    removes. *)
Definition py_isspace (c : ascii) : bool :=
  let n := nat_of_ascii c in
  (Nat.leb 9 n && Nat.leb n 13) || (Nat.leb 28 n && Nat.leb n 32) ||
  Nat.eqb n 133 || Nat.eqb n 160.

(** [str.strip()] *)
Definition strip (s : string) : string :=
  string_of_list_ascii
    (rev (drop_while py_isspace (rev (drop_while py_isspace (list_ascii_of_string s))))).

(** [str.split()] (no separator): runs of whitespace separate, no empty
    fields; [cur] holds the current field reversed. *)
Fixpoint split_ws_aux (cur : list ascii) (s : string) : list string :=
  match s with
  | EmptyString =>
      match cur with [] => [] | _ => [string_of_list_ascii (rev cur)] end
  | String c s' =>
      if py_isspace c then
        match cur with
        | [] => split_ws_aux [] s'
        | _ => string_of_list_ascii (rev cur) :: split_ws_aux [] s'
        end
      else split_ws_aux (c :: cur) s'
  end.

Definition split_ws (s : string) : list string := split_ws_aux [] s.

(** [str.split(sep)] for a one-character separator. *)
Fixpoint split_on (sep : ascii) (cur : list ascii) (s : string) : list string :=
  match s with
  | EmptyString => [string_of_list_ascii (rev cur)]
  | String c s' =>
      if Ascii.eqb c sep then string_of_list_ascii (rev cur) :: split_on sep [] s'
      else split_on sep (c :: cur) s'
  end.

(** [s.split('\n')] *)
Definition split_lines (s : string) : list string := split_on "010"%char [] s.

(** Stable insertion sort for a boolean "may come before" relation. *)
Fixpoint insert_by {A} (le : A -> A -> bool) (x : A) (l : list A) : list A :=
  match l with
  | [] => [x]
  | y :: ys => if le x y then x :: y :: ys else y :: insert_by le x ys
  end.

Fixpoint sort_by {A} (le : A -> A -> bool) (l : list A) : list A :=
  match l with
  | [] => []
  | x :: xs => insert_by le x (sort_by le xs)
  end.

(** ** Hardware scan output: [process_hardware_output] *)

(** A device: (name, manufacturer, device id). *)
Definition Device : Type := string * string * string.

(** The body of the [for line in lines] loop: the item a line yields. *)
Definition parse_line (line0 : string) : option Device :=
  let line := strip line0 in
  if negb (line =? "")%string && negb (String.prefix "Name" line)
     && negb (String.prefix "-" line) then
    let parts := split_ws line in
    let n := length parts in
    if Nat.leb 3 n then
      Some (String.concat " " (firstn (n - 2) parts), nth (n - 2) parts "",
            nth (n - 1) parts "")
    else None
  else None.

Definition parse_lines (output : string) : list Device :=
  flat_map (fun l => match parse_line l with Some d => [d] | None => [] end)
    (split_lines output).

(** The sort column, one of ["Name", "Manufacturer", "DeviceID"]. *)
Inductive Col := ColName | ColManufacturer | ColDeviceID.

(** [itemgetter(col_index)] *)
Definition col_key (c : Col) (d : Device) : string :=
  match c, d with
  | ColName, (n, _, _) => n
  | ColManufacturer, (_, m, _) => m
  | ColDeviceID, (_, _, i) => i
  end.

(** [items.sort(key=itemgetter(col_index), reverse=sort_reverse)]: an item
    may stay before a later one when its key is not greater (not smaller
    when reversed); Python's sort is stable in both directions. *)
Definition device_before (c : Col) (reverse : bool) (x y : Device) : bool :=
  if reverse then String.leb (col_key c y) (col_key c x)
  else String.leb (col_key c x) (col_key c y).

(** A row of the hardware tree: the device and its zebra tag. *)
Definition HwRow : Type := Device * string.

Fixpoint zebra (count : nat) (ds : list Device) : list HwRow :=
  match ds with
  | [] => []
  | d :: ds' => (d, if Nat.even count then "evenrow" else "oddrow") :: zebra (S count) ds'
  end.

(** [process_hardware_output(output)]: rows are appended to [tree]. *)
Definition process_hardware_output (tree : list HwRow) (sort_column : Col)
    (sort_reverse : bool) (output : string) : list HwRow :=
  (tree ++ zebra 0 (sort_by (device_before sort_column sort_reverse) (parse_lines output)))%list.

(** A table line: fields, each followed by its separator, then the last
    field. *)
Fixpoint layout (ws : list (string * string)) (last_field : string) : string :=
  match ws with
  | [] => last_field
  | (w, sep) :: r => w ++ sep ++ layout r last_field
  end.

Definition no_ws (s : string) : bool :=
  negb (s =? "")%string && forallb (fun c => negb (py_isspace c)) (list_ascii_of_string s).

Definition ws_only (s : string) : bool := forallb py_isspace (list_ascii_of_string s).

Module HwParse.

Lemma L_app (a b : string) :
  list_ascii_of_string (a ++ b) = (list_ascii_of_string a ++ list_ascii_of_string b)%list.
Proof. induction a; simpl; congruence. Qed.

Lemma string_app_nil (s : string) : (s ++ "")%string = s.
Proof. induction s; simpl; congruence. Qed.

Lemma split_word (w r : string) (cur : list ascii) :
  forallb (fun c => negb (py_isspace c)) (list_ascii_of_string w) = true ->
  split_ws_aux cur (w ++ r) = split_ws_aux (rev (list_ascii_of_string w) ++ cur)%list r.
Proof.
  revert cur; induction w as [|c w IH]; intros cur H; simpl in *; auto.
  apply andb_true_iff in H as [Hc Hw]. apply negb_true_iff in Hc. rewrite Hc.
  rewrite IH by exact Hw. rewrite <- app_assoc. reflexivity.
Qed.

Lemma split_spaces (s r : string) :
  ws_only s = true -> split_ws_aux [] (s ++ r) = split_ws_aux [] r.
Proof.
  unfold ws_only. induction s as [|c s IH]; simpl; auto.
  intros H. apply andb_true_iff in H as [Hc Hs]. rewrite Hc. auto.
Qed.

Lemma no_ws_rev_nonempty (w : string) :
  no_ws w = true -> rev (list_ascii_of_string w) <> [].
Proof.
  unfold no_ws. destruct w; simpl; [discriminate|].
  intros _ H. apply app_eq_nil in H as [_ H]. discriminate.
Qed.

Lemma string_of_rev_rev (w : string) :
  string_of_list_ascii (rev (rev (list_ascii_of_string w) ++ [])) = w.
Proof.
  rewrite app_nil_r, rev_involutive. apply string_of_list_ascii_of_string.
Qed.

Definition good_fields (ws : list (string * string)) : bool :=
  forallb (fun '(w, sep) => no_ws w && negb (sep =? "")%string && ws_only sep) ws.

Lemma split_layout (ws : list (string * string)) (last_field : string) :
  good_fields ws = true -> no_ws last_field = true ->
  split_ws (layout ws last_field) = (map fst ws ++ [last_field])%list.
Proof.
  unfold split_ws. induction ws as [|[w sep] r IH]; simpl; intros Hg Hl.
  - rewrite <- (string_app_nil last_field) at 1.
    rewrite split_word by (unfold no_ws in Hl; apply andb_true_iff in Hl; tauto).
    simpl. destruct (rev (list_ascii_of_string last_field) ++ [])%list eqn:E.
    + rewrite app_nil_r in E. exfalso. exact (no_ws_rev_nonempty _ Hl E).
    + rewrite <- E. rewrite string_of_rev_rev. reflexivity.
  - apply andb_true_iff in Hg as [Hwsep Hr].
    apply andb_true_iff in Hwsep as [Hwsep Hws]. apply andb_true_iff in Hwsep as [Hw Hsep].
    rewrite split_word by (unfold no_ws in Hw; apply andb_true_iff in Hw; tauto).
    destruct sep as [|c sep']; [discriminate|].
    unfold ws_only in Hws. simpl in Hws. apply andb_true_iff in Hws as [Hc Hsp].
    simpl. rewrite Hc.
    destruct (rev (list_ascii_of_string w) ++ [])%list eqn:E.
    + rewrite app_nil_r in E. exfalso. exact (no_ws_rev_nonempty _ Hw E).
    + rewrite <- E, string_of_rev_rev. f_equal.
      rewrite split_spaces by exact Hsp. apply IH; auto.
Qed.

Lemma L_layout (ws : list (string * string)) (last_field : string) :
  list_ascii_of_string (layout ws last_field) =
  (flat_map (fun '(w, sep) => list_ascii_of_string w ++ list_ascii_of_string sep) ws
   ++ list_ascii_of_string last_field)%list.
Proof.
  induction ws as [|[w sep] r IH]; simpl; auto.
  rewrite !L_app, IH. rewrite !app_assoc. reflexivity.
Qed.

Lemma drop_spaces (p r : list ascii) :
  forallb py_isspace p = true -> drop_while py_isspace (p ++ r) = drop_while py_isspace r.
Proof.
  induction p as [|c p IH]; simpl; auto.
  intros H. apply andb_true_iff in H as [Hc Hp]. rewrite Hc. auto.
Qed.

Definition starts_solid (l : list ascii) : Prop :=
  match l with c :: _ => py_isspace c = false | [] => False end.

Lemma drop_keep (l r : list ascii) :
  starts_solid l -> drop_while py_isspace (l ++ r) = (l ++ r)%list.
Proof. destruct l as [|c l]; simpl; [tauto|]. intros H. rewrite H. reflexivity. Qed.

(** [strip] removes whitespace padding around a text whose first and last
    characters are not whitespace. *)
Lemma strip_padded (p1 p2 body : string) :
  ws_only p1 = true -> ws_only p2 = true ->
  starts_solid (list_ascii_of_string body) ->
  starts_solid (rev (list_ascii_of_string body)) ->
  strip (p1 ++ body ++ p2) = body.
Proof.
  unfold strip, ws_only. intros H1 H2 Hb Hr.
  rewrite !L_app, drop_spaces by exact H1. rewrite drop_keep by exact Hb.
  rewrite rev_app_distr, drop_spaces.
  - rewrite <- (app_nil_r (rev (list_ascii_of_string body))), drop_keep by exact Hr.
    rewrite app_nil_r, rev_involutive. apply string_of_list_ascii_of_string.
  - rewrite forallb_forall in *. intros x Hx. apply H2. apply in_rev. exact Hx.
Qed.

End HwParse.

Module HwParse2.
Import HwParse.

Lemma no_ws_solid (w : string) :
  no_ws w = true ->
  starts_solid (list_ascii_of_string w) /\ starts_solid (rev (list_ascii_of_string w)).
Proof.
  unfold no_ws. intros H. apply andb_true_iff in H as [Hne Hf].
  assert (Hf' : forall x, In x (list_ascii_of_string w) -> py_isspace x = false).
  { rewrite forallb_forall in Hf. intros x Hx. apply negb_true_iff. auto. }
  destruct (list_ascii_of_string w) as [|c l] eqn:E.
  - destruct w; [discriminate|discriminate].
  - split; simpl.
    + apply Hf'. left; auto.
    + destruct (rev l ++ [c])%list as [|c' l'] eqn:E2.
      * apply app_eq_nil in E2 as [_ E2]. discriminate.
      * apply Hf'. apply (in_rev (c :: l)). simpl. rewrite E2. left; auto.
Qed.

Lemma solid_app (l r : list ascii) : starts_solid l -> starts_solid (l ++ r).
Proof. destruct l; simpl; tauto. Qed.

Lemma fields_tail (l : list string) (a b : string) :
  firstn (length l) (l ++ [a; b]) = l /\
  nth (length l) (l ++ [a; b]) "" = a /\ nth (S (length l)) (l ++ [a; b]) "" = b.
Proof.
  induction l as [|x l IH]; simpl; auto.
  destruct IH as (H1 & H2 & H3). rewrite H1. auto.
Qed.

End HwParse2.

(** X: a device line of the scan table, made of name words, a
    manufacturer and a device id separated by runs of whitespace and padded
    with whitespace, is parsed back into the name (its words joined by
    single spaces), the manufacturer and the device id, provided the line
    does not start with "Name" or "-". *)
Theorem parse_device_line (pad1 pad2 : string) (nw : list (string * string))
    (m sm d : string) :
  nw <> [] ->
  HwParse.good_fields (nw ++ [(m, sm)]) = true ->
  no_ws d = true ->
  ws_only pad1 = true -> ws_only pad2 = true ->
  String.prefix "Name" (layout (nw ++ [(m, sm)]) d) = false ->
  String.prefix "-" (layout (nw ++ [(m, sm)]) d) = false ->
  parse_line (pad1 ++ layout (nw ++ [(m, sm)]) d ++ pad2) =
    Some (String.concat " " (map fst nw), m, d).
Proof.
  intros Hnw Hg Hd Hp1 Hp2 HN Hdash.
  set (body := layout (nw ++ [(m, sm)]) d) in *.
  destruct nw as [|[w1 s1] nw']; [congruence|].
  assert (Hw1 : no_ws w1 = true).
  { simpl in Hg. apply andb_true_iff in Hg as [Hg _].
    apply andb_true_iff in Hg as [Hg _]. apply andb_true_iff in Hg. tauto. }
  assert (Hstart : HwParse.starts_solid (list_ascii_of_string body)).
  { subst body. simpl. rewrite HwParse.L_app.
    apply HwParse2.solid_app, HwParse2.no_ws_solid, Hw1. }
  assert (Hend : HwParse.starts_solid (rev (list_ascii_of_string body))).
  { subst body. rewrite HwParse.L_layout, rev_app_distr.
    apply HwParse2.solid_app, HwParse2.no_ws_solid, Hd. }
  unfold parse_line.
  rewrite (HwParse.strip_padded pad1 pad2 body Hp1 Hp2 Hstart Hend).
  replace (body =? "")%string with false
    by (destruct body; simpl in Hstart; [tauto|reflexivity]).
  rewrite HN, Hdash. change (negb false && negb false && negb false)%bool with true.
  cbv iota beta.
  subst body. rewrite (HwParse.split_layout _ _ Hg Hd).
  rewrite map_app, <- app_assoc.
  assert (Hlen : 1 <= length (map fst ((w1, s1) :: nw'))) by (simpl; lia).
  generalize dependent (map fst ((w1, s1) :: nw')). intros l Hlen.
  change (map fst [(m, sm)] ++ [d])%list with [m; d].
  destruct (HwParse2.fields_tail l m d) as (F1 & F2 & F3).
  rewrite length_app. simpl length.
  replace (Nat.leb 3 (length l + 2)) with true
    by (symmetry; apply Nat.leb_le; lia).
  replace (length l + 2 - 2) with (length l) by lia.
  replace (length l + 2 - 1) with (S (length l)) by lia.
  rewrite F1, F2, F3. reflexivity.
Qed.

Lemma parse_device_line_witness :
  parse_line "  Intel(R) Ethernet   Intel  PCI\VEN_8086 " =
    Some ("Intel(R) Ethernet", "Intel", "PCI\VEN_8086").
Proof.
  exact (parse_device_line "  " " " [("Intel(R)", " "); ("Ethernet", "   ")]
    "Intel" "  " "PCI\VEN_8086" ltac:(discriminate) eq_refl eq_refl eq_refl eq_refl
    eq_refl eq_refl).
Defined.

Section SortBy.
Variable A : Type.
Variable le : A -> A -> bool.
Hypothesis le_total : forall x y, le x y = true \/ le y x = true.
Hypothesis le_trans : forall x y z, le x y = true -> le y z = true -> le x z = true.

Definition le_prop (x y : A) : Prop := le x y = true.

Lemma insert_by_perm (x : A) (l : list A) : Permutation (insert_by le x l) (x :: l).
Proof.
  induction l as [|y ys IH]; simpl; auto.
  destruct (le x y); auto. rewrite IH. apply perm_swap.
Qed.

Lemma sort_by_perm (l : list A) : Permutation (sort_by le l) l.
Proof. induction l; simpl; auto. rewrite insert_by_perm. auto. Qed.

Lemma insert_by_sorted (x : A) (l : list A) :
  StronglySorted le_prop l -> StronglySorted le_prop (insert_by le x l).
Proof.
  induction 1 as [|y ys Hs IH Hf]; simpl; [repeat constructor|].
  destruct (le x y) eqn:Hxy.
  - constructor; [constructor; auto|]. constructor; auto.
    eapply Forall_impl; [|exact Hf]. unfold le_prop. eauto.
  - constructor; auto.
    eapply Permutation_Forall; [symmetry; apply insert_by_perm|].
    constructor; auto. unfold le_prop. destruct (le_total x y); congruence.
Qed.

Lemma sort_by_sorted (l : list A) : StronglySorted le_prop (sort_by le l).
Proof. induction l; simpl; [constructor|]. apply insert_by_sorted; auto. Qed.

End SortBy.

Module HwFacts.

Lemma split_ws_aux_fields (cur : list ascii) (s : string) :
  forallb (fun c => negb (py_isspace c)) cur = true ->
  Forall (fun w => no_ws w = true) (split_ws_aux cur s).
Proof.
  assert (Emit : forall cur, cur <> [] -> forallb (fun c => negb (py_isspace c)) cur = true ->
            no_ws (string_of_list_ascii (rev cur)) = true).
  { intros c Hne Hf. unfold no_ws. rewrite list_ascii_of_string_of_list_ascii.
    apply andb_true_iff. split.
    - destruct (rev c) as [|x l] eqn:E; [apply (f_equal (@rev ascii)) in E;
        rewrite rev_involutive in E; simpl in E; congruence|reflexivity].
    - rewrite forallb_forall in *. intros x Hx. apply Hf. apply in_rev. exact Hx. }
  revert cur; induction s as [|c s IH]; intros cur Hf; simpl.
  - destruct cur; constructor; auto. apply Emit; [discriminate|auto].
  - destruct (py_isspace c) eqn:Hc.
    + destruct cur; [apply IH; reflexivity|].
      constructor; [apply Emit; [discriminate|auto]|apply IH; reflexivity].
    + apply IH. simpl. rewrite Hc. exact Hf.
Qed.

Lemma concat_nonempty (x : string) (xs : list string) :
  x <> "" -> String.concat " " (x :: xs) <> "".
Proof.
  destruct x; [congruence|]. destruct xs; simpl; discriminate.
Qed.

Lemma device_before_total (c : Col) (r : bool) (x y : Device) :
  device_before c r x y = true \/ device_before c r y x = true.
Proof. unfold device_before. destruct r; apply String.leb_total. Qed.

Lemma device_before_trans (c : Col) (r : bool) (x y z : Device) :
  device_before c r x y = true -> device_before c r y z = true -> device_before c r x z = true.
Proof.
  unfold device_before. destruct r; intros H1 H2; eapply SortOrder.string_leb_trans; eauto.
Qed.

Lemma zebra_fst (c : nat) (ds : list Device) : map fst (zebra c ds) = ds.
Proof. revert c; induction ds; intros c; simpl; f_equal; auto. Qed.

Lemma zebra_tag (c i : nat) (ds : list Device) (row : HwRow) :
  nth_error (zebra c ds) i = Some row ->
  snd row = if Nat.even (c + i) then "evenrow" else "oddrow".
Proof.
  revert c i; induction ds as [|d ds IH]; intros c i H; [destruct i; discriminate|].
  destruct i as [|i]; simpl in H.
  - injection H as <-. rewrite Nat.add_0_r. reflexivity.
  - rewrite (IH (S c) i H). rewrite Nat.add_succ_r. reflexivity.
Qed.

End HwFacts.

(** X: a line yields a device only if, once stripped, it is not empty, does
    not start with "Name" or "-", and splits into at least 3 fields; the
    device's name is not empty and its manufacturer and device id are
    non-empty and free of whitespace (a manufacturer written with a space
    is split). *)
Theorem parse_line_fields (line : string) :
  match parse_line line with
  | Some (n, m, i) =>
      no_ws m = true /\ no_ws i = true /\ n <> "" /\
      String.prefix "Name" (strip line) = false /\ String.prefix "-" (strip line) = false /\
      3 <= length (split_ws (strip line))
  | None => True
  end.
Proof.
  unfold parse_line.
  destruct (negb (strip line =? "")%string) eqn:E1; cbn [negb andb]; [|exact I].
  destruct (String.prefix "Name" (strip line)) eqn:E2; cbn [negb andb]; [exact I|].
  destruct (String.prefix "-" (strip line)) eqn:E3; cbn [negb andb]; [exact I|].
  pose proof (HwFacts.split_ws_aux_fields [] (strip line) eq_refl) as HF.
  fold (split_ws (strip line)) in HF.
  destruct (Nat.leb 3 (length (split_ws (strip line)))) eqn:E4; [|exact I].
  apply Nat.leb_le in E4.
  generalize dependent (split_ws (strip line)); intros parts HF E4.
  rewrite Forall_forall in HF.
  split; [apply HF, nth_In; lia|]. split; [apply HF, nth_In; lia|].
  split; [|auto].
  destruct parts as [|p0 ps] eqn:Ep; simpl in E4; [lia|].
  replace (length (p0 :: ps) - 2) with (S (length ps - 2)) by (simpl; lia).
  simpl firstn. apply HwFacts.concat_nonempty.
  assert (Hp0 : no_ws p0 = true) by (apply HF; left; auto).
  unfold no_ws in Hp0. apply andb_true_iff in Hp0 as [Hp0 _].
  apply negb_true_iff, String.eqb_neq in Hp0. exact Hp0.
Qed.

(** X: [process_hardware_output] keeps the rows already in the tree and
    appends one row per parsed device: the devices of all the lines, in
    the order of the sort column (descending when [sort_reverse]), tagged
    "evenrow" and "oddrow" alternately from the first new row. *)
Theorem process_hardware_output_spec (tree : list HwRow) (c : Col) (r : bool) (output : string) :
  let rows := process_hardware_output tree c r output in
  let fresh := skipn (length tree) rows in
  firstn (length tree) rows = tree /\
  Permutation (map fst fresh) (parse_lines output) /\
  (forall i j x y, i < j -> nth_error (map fst fresh) i = Some x ->
     nth_error (map fst fresh) j = Some y ->
     if r then String.leb (col_key c y) (col_key c x) = true
     else String.leb (col_key c x) (col_key c y) = true) /\
  (forall i row, nth_error fresh i = Some row ->
     snd row = if Nat.even i then "evenrow" else "oddrow").
Proof.
  unfold process_hardware_output. cbv zeta.
  rewrite firstn_app, skipn_app, Nat.sub_diag, firstn_all, skipn_all, firstn_O, app_nil_r.
  simpl skipn. rewrite app_nil_l, HwFacts.zebra_fst.
  split; [reflexivity|]. split; [apply sort_by_perm|]. split.
  - intros i j x y Hij Hi Hj.
    pose proof (ListingFacts.strongly_sorted_nth _ _ i j x y
      (sort_by_sorted Device (device_before c r) (HwFacts.device_before_total c r)
         (HwFacts.device_before_trans c r) (parse_lines output)) Hij Hi Hj) as H.
    unfold le_prop, device_before in H. destruct r; exact H.
  - intros i row H. exact (HwFacts.zebra_tag 0 i _ row H).
Qed.


(** * Navigator sessions *)

(** A call made on a navigator after [populate_root]: the double-click
    handler and the transfer handlers call [navigate_to_directory] and
    [navigate_back]. *)
Inductive NavOp := OpTo (path : string) | OpBack.

Definition run_op (fs : FS) (s : Nav) (op : NavOp) : option Nav :=
  match op with
  | OpTo p => navigate_to_directory fs s p
  | OpBack => Some (navigate_back fs s)
  end.

(** [None] when a call raises. *)
Fixpoint run_ops (fs : FS) (s : Nav) (ops : list NavOp) : option Nav :=
  match ops with
  | [] => Some s
  | op :: ops' =>
      match run_op fs s op with
      | Some s' => run_ops fs s' ops'
      | None => None
      end
  end.

Module NavInv.

Definition rooted (p : string) (s : Nav) : Prop :=
  (exists t, navigation_history s = p :: t) /\ current_path s <> None.

Lemma pd_current_cases (fs : FS) (s : Nav) (n : Node) (q : string) :
  current_path (populate_directory fs s n q) = current_path s \/
  current_path (populate_directory fs s n q) = Some q.
Proof.
  destruct (listing_ok fs q) eqn:Hok.
  - destruct (navigation_history s) eqn:Hh.
    + left. destruct (Listing.populate_directory_shape fs s n q) as (_ & _ & H).
      rewrite Hh in H. tauto.
    + right. apply NavFacts.pd_current_ok; [congruence|exact Hok].
  - left. apply NavFacts.pd_current_fail. exact Hok.
Qed.

Lemma pd_rooted (fs : FS) (p : string) (s : Nav) (n : Node) (q : string) :
  rooted p s -> rooted p (populate_directory fs s n q).
Proof.
  intros [[t Ht] Hc]. split.
  - exists t. rewrite NavFacts.pd_history. exact Ht.
  - destruct (pd_current_cases fs s n q) as [-> | ->]; [exact Hc|discriminate].
Qed.

Lemma run_op_rooted (fs : FS) (p : string) (s : Nav) (op : NavOp) :
  rooted p s -> exists s', run_op fs s op = Some s' /\ rooted p s'.
Proof.
  intros Hr. destruct op as [q|]; simpl.
  - unfold navigate_to_directory. destruct (isdir fs q); [|eauto].
    destruct Hr as [[t Ht] Hc]. destruct (current_path s) as [c|] eqn:Ec; [|congruence].
    eexists; split; [reflexivity|]. apply pd_rooted.
    destruct (q =? dirname c)%string.
    + split; [exists t; exact Ht|congruence].
    + split; [exists (t ++ [q])%list; simpl; rewrite Ht; reflexivity|simpl; congruence].
  - eexists; split; [reflexivity|]. unfold navigate_back.
    destruct (Nat.ltb 1 (length (navigation_history s))) eqn:Hl; [|exact Hr].
    cbv zeta. apply pd_rooted. destruct Hr as [[t Ht] Hc]. rewrite Ht in *.
    destruct t as [|t0 t']; [simpl in Hl; discriminate|].
    split; [exists (removelast (t0 :: t')); reflexivity|exact Hc].
Qed.

Lemma run_ops_rooted (fs : FS) (p : string) (ops : list NavOp) :
  forall s, rooted p s -> exists s', run_ops fs s ops = Some s' /\ rooted p s'.
Proof.
  induction ops as [|op ops IH]; intros s Hr; simpl; [eauto|].
  destruct (run_op_rooted fs p s op Hr) as (s1 & -> & H1). apply IH. exact H1.
Qed.

End NavInv.

(** X: after [populate_root(p)], whatever calls of [navigate_to_directory]
    and [navigate_back] follow, none raises (the [TypeError] of
    [os.path.dirname(None)] cannot occur), [current_path] stays set, and
    [navigation_history] still starts with [p]: [navigate_back] never pops
    the root, and [_populate_directory] never reaches its [IndexError]. *)
Theorem navigation_keeps_root (fs : FS) (s : Nav) (p : string) (ops : list NavOp) :
  exists s', run_ops fs (populate_root fs s p) ops = Some s' /\
    (exists t, navigation_history s' = p :: t) /\ current_path s' <> None.
Proof.
  apply NavInv.run_ops_rooted.
  destruct (NavFacts.populate_root_state fs s p) as [Hh Hc].
  split; [exists []; exact Hh|rewrite Hc; discriminate].
Qed.

(** * Double-click routing *)

Module ClickFacts.

Lemma entry_rows_In (hidden : bool) (path : string) (c : nat) (es : list DirEntry) (r : Row) :
  In r (entry_rows hidden path c es) ->
  exists e c', In e es /\ (hidden = true \/ is_hidden_name (name e) = false) /\
               r = entry_row path c' e.
Proof.
  revert c; induction es as [|e es IH]; simpl; intros c H; [contradiction|].
  destruct (negb hidden && is_hidden_name (name e)) eqn:Eh.
  - destruct (IH c H) as (e' & c' & H1 & H2 & H3). exists e', c'. auto.
  - destruct H as [<- | H].
    + exists e, c. split; [left; reflexivity|]. split; [|reflexivity].
      destruct hidden; [left; reflexivity|right; exact Eh].
    + destruct (IH (S c) H) as (e' & c' & H1 & H2 & H3). exists e', c'. auto.
Qed.

Lemma click_entry_row (path : string) (c : nat) (e : DirEntry) :
  name e <> ".." ->
  on_double_click (entry_row path c e) =
  if is_dir e then DoNavigateTo (join path (name e)) else DoNothing.
Proof.
  intros H. unfold on_double_click, entry_row. simpl.
  destruct (is_dir e); simpl; [|reflexivity].
  apply String.eqb_neq in H. rewrite H. reflexivity.
Qed.

End ClickFacts.

(** X: in a listing made by [_populate_directory(path)], a double-click
    calls [navigate_back()] only on the ".." row, and
    [navigate_to_directory(q)] only on the row of a subdirectory [e]
    returned by [os.scandir(path)] and not hidden from the listing, with
    [q = os.path.join(path, e.name)], and that row is the row
    [_populate_directory] inserted for [e]; the placeholder, "Access Denied" and
    "Error" rows do nothing.  ([os.scandir] never returns "..".) *)
Theorem double_click_routes (fs : FS) (s : Nav) (n : Node) (path : string) (r : Row) :
  (forall es, scandir fs path = ScanOk es -> forall e, In e es -> name e <> "..") ->
  In r (view (populate_directory fs s n path)) ->
  match on_double_click r with
  | DoNavigateBack => r = dotdot_row path
  | DoNavigateTo q =>
      exists es e, scandir fs path = ScanOk es /\ In e es /\ is_dir e = true /\
        q = join path (name e) /\
        (hidden_files s = true \/ is_hidden_name (name e) = false) /\
        exists c, r = entry_row path c e
  | DoNothing => True
  end.
Proof.
  intros Hn Hr. destruct (Listing.populate_directory_shape fs s n path) as (_ & _ & H).
  destruct (navigation_history s) as [|h0 hs].
  - destruct H as (V & _). rewrite V in Hr. destruct Hr as [<-|[]]. simpl. exact I.
  - destruct (scandir fs path) as [es| |msg] eqn:Es.
    + cbv zeta in H. destruct H as (V & _). rewrite V in Hr.
      apply in_app_or in Hr as [Hr|Hr].
      * unfold Listing.back_rows in Hr. destruct (path =? h0)%string; [contradiction|].
        destruct Hr as [<-|[]]. simpl. reflexivity.
      * apply in_app_or in Hr as [Hr|Hr].
        -- destruct (ClickFacts.entry_rows_In _ _ _ _ _ Hr) as (e & c' & He & Hvis & ->).
           assert (Hin : In e es)
             by (eapply Permutation_in; [apply SortOrder.stable_sort_perm|exact He]).
           rewrite ClickFacts.click_entry_row by exact (Hn es eq_refl e Hin).
           destruct (is_dir e) eqn:Ed; [|exact I].
           exists es, e. repeat split; auto. exists c'. reflexivity.
        -- destruct (entry_rows (hidden_files s) path 0 (stable_sort es));
             [destruct Hr as [<-|[]]; simpl; exact I|contradiction].
    + destruct H as (V & _). rewrite V in Hr. apply in_app_or in Hr as [Hr|Hr].
      * unfold Listing.back_rows in Hr. destruct (path =? h0)%string; [contradiction|].
        destruct Hr as [<-|[]]. simpl. reflexivity.
      * destruct Hr as [<-|[]]. simpl. exact I.
    + destruct H as (V & _). rewrite V in Hr. apply in_app_or in Hr as [Hr|Hr].
      * unfold Listing.back_rows in Hr. destruct (path =? h0)%string; [contradiction|].
        destruct Hr as [<-|[]]. simpl. reflexivity.
      * destruct Hr as [<-|[]]. simpl. exact I.
Qed.

Lemma double_click_routes_witness :
  let r := nth 0 (view (populate_directory drive_fs s_root NRoot "/drive")) empty_row in
  In r (view (populate_directory drive_fs s_root NRoot "/drive")) /\
  match on_double_click r with
  | DoNavigateBack => r = dotdot_row "/drive"
  | DoNavigateTo q =>
      exists es e, scandir drive_fs "/drive" = ScanOk es /\ In e es /\ is_dir e = true /\
        q = join "/drive" (name e) /\
        (hidden_files s_root = true \/ is_hidden_name (name e) = false) /\
        exists c, r = entry_row "/drive" c e
  | DoNothing => True
  end.
Proof.
  intros r.
  assert (Hin : In r (view (populate_directory drive_fs s_root NRoot "/drive")))
    by (apply nth_In; vm_compute; lia).
  split; [exact Hin|].
  apply (double_click_routes drive_fs s_root NRoot "/drive" r); [|exact Hin].
  intros es H e He. vm_compute in H. injection H as <-.
  simpl in He. intuition (subst; discriminate).
Defined.

(** * Copy and move handlers *)

(** The transfer handlers' runs of the copy or move command, with what makes
    them run: a selected row with a non-empty path, a non-empty destination
    directory, and a "yes" when the target exists. *)
Definition transfer_guard (w : World) (sel : option Row) (g : Gui) (verb cmd : string) : Prop :=
  exists r dir,
    sel = Some r /\ fst (values r) <> "" /\
    current_path (nav_dest g) = Some dir /\ dir <> "" /\
    cmd = ps_command verb (fst (values r)) (join dir (basename (fst (values r)))) /\
    (exists_path w (join dir (basename (fst (values r)))) = true -> confirm w = true).

(** Effects the shared front part may emit: warnings, questions and the
    "Error" message box. *)
Definition quiet (e : Effect) : bool :=
  match e with
  | ShowWarning _ _ | AskYesNo _ _ => true
  | ShowError t _ => (t =? "Error")%string
  | _ => false
  end.

Module TransferFacts.

Lemma quiet_no_run (l : list Effect) : forallb quiet l = true -> filter is_run l = [].
Proof.
  induction l as [|e l IH]; simpl; auto.
  intros H. apply andb_true_iff in H as [H1 H2]. destruct e; simpl in *; auto; discriminate.
Qed.

Lemma quiet_no_status (l : list Effect) (m : string) :
  forallb quiet l = true -> ~ In (SetStatus m) l.
Proof.
  intros H Hi. rewrite forallb_forall in H. specialize (H _ Hi). discriminate.
Qed.

Lemma quiet_no_error (l : list Effect) (t m : string) :
  forallb quiet l = true -> t <> "Error" -> ~ In (ShowError t m) l.
Proof.
  intros H Ht Hi. rewrite forallb_forall in H. specialize (H _ Hi). simpl in H.
  apply String.eqb_eq in H. congruence.
Qed.

Lemma prelude_inl (w : World) (sel : option Row) (g : Gui) (effs : list Effect) :
  transfer_prelude w sel g = inl effs -> forallb quiet effs = true.
Proof.
  unfold transfer_prelude, get_selected_path. destruct sel as [r|]; simpl.
  - destruct (fst (values r) =? "")%string; [intros H; injection H as <-; reflexivity|].
    destruct (current_path (nav_dest g)) as [d|];
      [|intros H; injection H as <-; reflexivity].
    destruct (d =? "")%string; [intros H; injection H as <-; reflexivity|].
    destruct (exists_path w _); [destruct (confirm w)|]; intros H; try discriminate.
    injection H as <-. reflexivity.
  - intros H. injection H as <-. reflexivity.
Qed.

Lemma prelude_inr (w : World) (sel : option Row) (g : Gui)
    (e1 : list Effect) (sp dd fn dp : string) :
  transfer_prelude w sel g = inr (e1, sp, dd, fn, dp) ->
  exists r, sel = Some r /\ sp = fst (values r) /\ sp <> "" /\
    current_path (nav_dest g) = Some dd /\ dd <> "" /\
    fn = basename sp /\ dp = join dd fn /\
    (exists_path w dp = true -> confirm w = true) /\ forallb quiet e1 = true.
Proof.
  unfold transfer_prelude, get_selected_path. destruct sel as [r|]; simpl; [|discriminate].
  destruct (fst (values r) =? "")%string eqn:E1; [discriminate|].
  destruct (current_path (nav_dest g)) as [d|] eqn:E2; [|discriminate].
  destruct (d =? "")%string eqn:E3; [discriminate|].
  apply String.eqb_neq in E1, E3.
  destruct (exists_path w (join d (basename (fst (values r))))) eqn:E4;
    [destruct (confirm w) eqn:E5; [|discriminate]|];
    intros H; injection H as <- <- <- <- <-; exists r; repeat split; auto; congruence.
Qed.

Lemma navigate_to_set (fs : FS) (s : Nav) (c p : string) :
  current_path s = Some c -> exists s', navigate_to_directory fs s p = Some s'.
Proof.
  intros Hc. unfold navigate_to_directory. rewrite Hc.
  destruct (isdir fs p); eexists; reflexivity.
Qed.

Lemma guard_of (w : World) (sel : option Row) (g : Gui)
    (e1 : list Effect) (sp dd fn dp verb : string) :
  transfer_prelude w sel g = inr (e1, sp, dd, fn, dp) ->
  transfer_guard w sel g verb (ps_command verb sp dp).
Proof.
  intros Ep. destruct (prelude_inr _ _ _ _ _ _ _ _ Ep) as (r & Hs & -> & Hsp & Hc & Hd & -> & -> & Hx & _).
  exists r, dd. repeat split; auto.
Qed.

End TransferFacts.

(** X: [copy_file] never touches the source pane, changes the destination
    pane only by re-listing [nav_dest.current_path] after the copy command
    ran without error output, and never shows "Copy Error": its
    destination was checked to be set, so the refresh cannot raise. *)
Theorem copy_file_panes (w : World) (sel : option Row) (g : Gui) :
  let (g', effs) := copy_file w sel g in
  nav_source g' = nav_source g /\
  (g' = g \/
   exists dir d cmd,
     current_path (nav_dest g) = Some dir /\
     navigate_to_directory (wfs w) (nav_dest g) dir = Some d /\
     g' = mkGui (nav_source g) d /\
     In (RunPowershell cmd) effs /\ snd (runner w cmd) = "") /\
  (forall m, ~ In (ShowError "Copy Error" m) effs).
Proof.
  unfold copy_file.
  destruct (transfer_prelude w sel g) as [effs|[[[[e1 sp] dd] fn] dp]] eqn:Ep.
  - pose proof (TransferFacts.prelude_inl _ _ _ _ Ep) as Hq.
    split; [reflexivity|]. split; [left; reflexivity|].
    intros m. apply TransferFacts.quiet_no_error; [exact Hq|discriminate].
  - destruct (TransferFacts.prelude_inr _ _ _ _ _ _ _ _ Ep)
      as (r & _ & _ & _ & Hc & _ & _ & _ & _ & Hq).
    unfold run_powershell_command.
    destruct (runner w (ps_command "Copy-Item" sp dp)) as [out err] eqn:Er.
    destruct (err =? "")%string eqn:Ee.
    + destruct (TransferFacts.navigate_to_set (wfs w) (nav_dest g) dd dd Hc) as (d & Hd).
      rewrite Hd. split; [reflexivity|]. split.
      * right. exists dd, d, (ps_command "Copy-Item" sp dp). repeat split; auto.
        -- rewrite !in_app_iff. simpl. tauto.
        -- rewrite Er. apply String.eqb_eq. exact Ee.
      * intros m Hm.
        pose proof (TransferFacts.quiet_no_error e1 "Copy Error" m Hq ltac:(discriminate)).
        rewrite !in_app_iff in Hm. simpl in Hm. intuition discriminate.
    + split; [reflexivity|]. split; [left; reflexivity|].
      intros m Hm.
      pose proof (TransferFacts.quiet_no_error e1 "Copy Error" m Hq ltac:(discriminate)).
      rewrite !in_app_iff in Hm. simpl in Hm. intuition discriminate.
Qed.

(** X: when the external runner reports an error for every command, copy
    and move leave both panes as they were, set no status message, and,
    once a command has run, end with the "Failed to copy file" or "Failed to
    move file" error. *)
Theorem failed_transfer_keeps_panes (w : World) (sel : option Row) (g : Gui) :
  (forall c, snd (runner w c) <> "") ->
  fst (copy_file w sel g) = g /\ fst (cut_paste_file w sel g) = g /\
  (forall m, ~ In (SetStatus m) (snd (copy_file w sel g))) /\
  (forall m, ~ In (SetStatus m) (snd (cut_paste_file w sel g))) /\
  (forall c, In (RunPowershell c) (snd (copy_file w sel g)) ->
     last (snd (copy_file w sel g)) (SetStatus "") = ShowError "Error" "Failed to copy file") /\
  (forall c, In (RunPowershell c) (snd (cut_paste_file w sel g)) ->
     last (snd (cut_paste_file w sel g)) (SetStatus "") = ShowError "Error" "Failed to move file").
Proof.
  intros Hfail. unfold copy_file, cut_paste_file.
  destruct (transfer_prelude w sel g) as [effs|[[[[e1 sp] dd] fn] dp]] eqn:Ep.
  - pose proof (TransferFacts.prelude_inl _ _ _ _ Ep) as Hq. simpl.
    assert (Hr : forall c, ~ In (RunPowershell c) effs).
    { intros c Hi. rewrite forallb_forall in Hq. specialize (Hq _ Hi). discriminate. }
    repeat split; intros m Hm;
      first [exact (TransferFacts.quiet_no_status _ _ Hq Hm) | destruct (Hr _ Hm)].
  - destruct (TransferFacts.prelude_inr _ _ _ _ _ _ _ _ Ep)
      as (r & _ & _ & _ & _ & _ & _ & _ & _ & Hq).
    unfold run_powershell_command.
    pose proof (Hfail (ps_command "Copy-Item" sp dp)) as F1.
    pose proof (Hfail (ps_command "Move-Item" sp dp)) as F2.
    destruct (runner w (ps_command "Copy-Item" sp dp)) as [o1 r1].
    destruct (runner w (ps_command "Move-Item" sp dp)) as [o2 r2].
    simpl in F1, F2. apply String.eqb_neq in F1, F2. rewrite F1, F2. simpl.
    repeat split; try (intros; apply last_last);
      intros m Hm; pose proof (TransferFacts.quiet_no_status e1 m Hq);
      rewrite !in_app_iff in Hm; simpl in Hm; intuition discriminate.
Qed.

Definition failing_world : World :=
  mkWorld drive_fs (fun _ => false) (fun _ => ("", "Access is denied.")) true.

Lemma failed_transfer_keeps_panes_witness :
  fst (copy_file failing_world (Some notes_row) (mkGui s_root s_root)) = mkGui s_root s_root /\
  last (snd (copy_file failing_world (Some notes_row) (mkGui s_root s_root))) (SetStatus "")
    = ShowError "Error" "Failed to copy file".
Proof.
  destruct (failed_transfer_keeps_panes failing_world (Some notes_row) (mkGui s_root s_root))
    as (H1 & _ & _ & _ & H5 & _).
  - intros c. discriminate.
  - split; [exact H1|]. apply (H5 (ps_command "Copy-Item" "/drive/notes.txt" "/drive/notes.txt")).
    vm_compute. left. reflexivity.
Defined.

(** X: copy and move run at most one external command, the
    [Copy-Item]/[Move-Item] command built from the selected row's path and
    the destination pane's directory, and only when a row with a non-empty
    path is selected, the destination pane has a non-empty directory, and
    the user said yes if the target already existed. *)
Theorem transfer_runs_guarded (w : World) (sel : option Row) (g : Gui) :
  match filter is_run (snd (copy_file w sel g)) with
  | [] => True
  | [RunPowershell cmd] => transfer_guard w sel g "Copy-Item" cmd
  | _ => False
  end /\
  match filter is_run (snd (cut_paste_file w sel g)) with
  | [] => True
  | [RunPowershell cmd] => transfer_guard w sel g "Move-Item" cmd
  | _ => False
  end.
Proof.
  unfold copy_file, cut_paste_file.
  destruct (transfer_prelude w sel g) as [effs|[[[[e1 sp] dd] fn] dp]] eqn:Ep.
  - simpl. rewrite (TransferFacts.quiet_no_run _ (TransferFacts.prelude_inl _ _ _ _ Ep)).
    split; exact I.
  - pose proof (TransferFacts.guard_of w sel g e1 sp dd fn dp "Copy-Item" Ep) as G1.
    pose proof (TransferFacts.guard_of w sel g e1 sp dd fn dp "Move-Item" Ep) as G2.
    destruct (TransferFacts.prelude_inr _ _ _ _ _ _ _ _ Ep)
      as (r & _ & _ & _ & _ & _ & _ & _ & _ & Hq).
    pose proof (TransferFacts.quiet_no_run _ Hq) as He1.
    unfold run_powershell_command.
    destruct (runner w (ps_command "Copy-Item" sp dp)) as [o1 r1].
    destruct (runner w (ps_command "Move-Item" sp dp)) as [o2 r2].
    destruct (r1 =? "")%string, (r2 =? "")%string;
      repeat match goal with
      | |- context [navigate_to_directory ?a ?b ?c] => destruct (navigate_to_directory a b c)
      end;
      simpl; rewrite ?filter_app, ?He1; simpl; split; assumption.
Qed.

(** * TreeViewContextMenu *)

(** An entry of the Tk menu: a command with its label, callback and
    state ([true] for "normal"), or a separator, which has no label. *)
Inductive MenuEntry (Cb : Type) :=
| MCommand (label : string) (command : Cb) (enabled : bool)
| MSeparator.
Arguments MCommand {Cb}.
Arguments MSeparator {Cb}.

(** [self.menu] (tearoff=0, so entry indices start at 0) and
    [self.actions], a dict kept in insertion order. *)
Record CtxMenu (Cb : Type) := mkMenu {
  entries : list (MenuEntry Cb);
  actions : list (string * Cb)
}.
Arguments mkMenu {Cb}.
Arguments entries {Cb}.
Arguments actions {Cb}.

(** [d[k] = v] *)
Fixpoint dict_set {V} (k : string) (v : V) (d : list (string * V)) : list (string * V) :=
  match d with
  | [] => [(k, v)]
  | (k', v') :: d' => if (k =? k')%string then (k, v) :: d' else (k', v') :: dict_set k v d'
  end.

(** [del d[k]] *)
Fixpoint dict_del {V} (k : string) (d : list (string * V)) : list (string * V) :=
  match d with
  | [] => []
  | (k', v') :: d' => if (k =? k')%string then d' else (k', v') :: dict_del k d'
  end.

(** [k in d] *)
Definition dict_mem {V} (k : string) (d : list (string * V)) : bool :=
  existsb (fun kv => (fst kv =? k)%string) d.

Definition entry_label {Cb} (e : MenuEntry Cb) : option string :=
  match e with MCommand l _ _ => Some l | MSeparator => None end.

(** [add_command(label, callback)]; none of its callers passes [**kwargs]. *)
Definition add_command {Cb} (m : CtxMenu Cb) (label : string) (callback : Cb) : CtxMenu Cb :=
  mkMenu (entries m ++ [MCommand label callback true]) (dict_set label callback (actions m)).

Definition add_separator {Cb} (m : CtxMenu Cb) : CtxMenu Cb :=
  mkMenu (entries m ++ [MSeparator]) (actions m).

(** The loop of [_find_menu_index]: [entrycget(i, 'label')] raises
    [TclError] on a separator, which is skipped. *)
Fixpoint find_from {Cb} (label : string) (i : nat) (es : list (MenuEntry Cb)) : option nat :=
  match es with
  | [] => None
  | MCommand l _ _ :: es' => if (l =? label)%string then Some i else find_from label (S i) es'
  | MSeparator :: es' => find_from label (S i) es'
  end.

(** [_find_menu_index(label)]; an empty menu ([index('end')] is [None])
    gives [None] as well. *)
Definition find_menu_index {Cb} (m : CtxMenu Cb) (label : string) : option nat :=
  find_from label 0 (entries m).

(** [menu.delete(index)] *)
Fixpoint remove_at {A} (i : nat) (l : list A) : list A :=
  match l, i with
  | [], _ => []
  | _ :: l', 0 => l'
  | x :: l', S i' => x :: remove_at i' l'
  end.

Definition remove_command {Cb} (m : CtxMenu Cb) (label : string) : CtxMenu Cb :=
  if dict_mem label (actions m) then
    match find_menu_index m label with
    | Some i => mkMenu (remove_at i (entries m)) (dict_del label (actions m))
    | None => m
    end
  else m.

(** [menu.entryconfig(index, state=...)] *)
Fixpoint set_state_at {Cb} (i : nat) (st : bool) (es : list (MenuEntry Cb)) : list (MenuEntry Cb) :=
  match es, i with
  | [], _ => []
  | MCommand l c _ :: es', 0 => MCommand l c st :: es'
  | MSeparator :: es', 0 => MSeparator :: es'
  | e :: es', S i' => e :: set_state_at i' st es'
  end.

Definition enable_command {Cb} (m : CtxMenu Cb) (label : string) : CtxMenu Cb :=
  match find_menu_index m label with
  | Some i => mkMenu (set_state_at i true (entries m)) (actions m)
  | None => m
  end.

Definition disable_command {Cb} (m : CtxMenu Cb) (label : string) : CtxMenu Cb :=
  match find_menu_index m label with
  | Some i => mkMenu (set_state_at i false (entries m)) (actions m)
  | None => m
  end.

Definition clear_menu {Cb} (m : CtxMenu Cb) : CtxMenu Cb := mkMenu [] [].

Definition menu_labels {Cb} (m : CtxMenu Cb) : list (option string) :=
  map entry_label (entries m).

Module MenuFacts.

Lemma find_from_absent {Cb} (label : string) (i : nat) (es : list (MenuEntry Cb)) :
  ~ In (Some label) (map entry_label es) -> find_from label i es = None.
Proof.
  revert i; induction es as [|[l c b|] es IH]; intros i H; simpl in *; auto.
  destruct (l =? label)%string eqn:E.
  - apply String.eqb_eq in E. subst. tauto.
  - apply IH. tauto.
Qed.

Lemma find_from_app {Cb} (label : string) (i : nat) (es rest : list (MenuEntry Cb)) (c : Cb) (b : bool) :
  ~ In (Some label) (map entry_label es) ->
  find_from label i (es ++ MCommand label c b :: rest) = Some (i + length es).
Proof.
  revert i; induction es as [|[l c' b'|] es IH]; intros i H; simpl in *.
  - rewrite String.eqb_refl, Nat.add_0_r. reflexivity.
  - destruct (l =? label)%string eqn:E.
    + apply String.eqb_eq in E. subst. tauto.
    + rewrite IH by tauto. f_equal. lia.
  - rewrite IH by tauto. f_equal. lia.
Qed.

Lemma remove_at_app {A} (es rest : list A) (x : A) :
  remove_at (length es) (es ++ x :: rest) = (es ++ rest)%list.
Proof. induction es as [|y es IH]; simpl; congruence. Qed.

Lemma dict_mem_set {V} (k : string) (v : V) (d : list (string * V)) :
  dict_mem k (dict_set k v d) = true.
Proof.
  induction d as [|[k' v'] d IH]; simpl; [rewrite String.eqb_refl; reflexivity|].
  destruct (k =? k')%string eqn:E; simpl; [rewrite String.eqb_refl; reflexivity|].
  rewrite IH. apply orb_true_r.
Qed.

Lemma dict_del_set {V} (k : string) (v : V) (d : list (string * V)) :
  dict_mem k d = false -> dict_del k (dict_set k v d) = d.
Proof.
  induction d as [|[k' v'] d IH]; simpl; intros H; [rewrite String.eqb_refl; reflexivity|].
  apply orb_false_iff in H as [H1 H2].
  rewrite String.eqb_sym in H1. rewrite H1. simpl. rewrite H1, IH; auto.
Qed.

Lemma dict_set_set {V} (k : string) (v1 v2 : V) (d : list (string * V)) :
  dict_set k v2 (dict_set k v1 d) = dict_set k v2 d.
Proof.
  induction d as [|[k' v'] d IH]; simpl; [rewrite String.eqb_refl; reflexivity|].
  destruct (k =? k')%string eqn:E; simpl; [rewrite String.eqb_refl; reflexivity|].
  rewrite E, IH. reflexivity.
Qed.

Lemma set_state_labels {Cb} (i : nat) (st : bool) (es : list (MenuEntry Cb)) :
  map entry_label (set_state_at i st es) = map entry_label es.
Proof.
  revert i; induction es as [|e es IH]; intros [|i]; simpl; auto.
  - destruct e; reflexivity.
  - destruct e; simpl; f_equal; apply IH.
Qed.

Lemma set_state_other {Cb} (i j : nat) (st : bool) (es : list (MenuEntry Cb)) :
  i <> j -> nth_error (set_state_at i st es) j = nth_error es j.
Proof.
  revert i j; induction es as [|e es IH]; intros [|i] [|j] H; simpl; auto.
  - congruence.
  - destruct e; reflexivity.
  - destruct e; reflexivity.
  - destruct e; simpl; apply IH; congruence.
Qed.

Lemma find_from_some {Cb} (label : string) (k i : nat) (es : list (MenuEntry Cb)) :
  find_from label k es = Some i ->
  k <= i /\ exists c b, nth_error es (i - k) = Some (MCommand label c b).
Proof.
  revert k; induction es as [|[l c b|] es IH]; intros k H; simpl in H; [discriminate| |].
  - destruct (l =? label)%string eqn:E.
    + injection H as <-. apply String.eqb_eq in E. subst. rewrite Nat.sub_diag.
      split; [lia|]. exists c, b. reflexivity.
    + destruct (IH (S k) H) as [Hk Hn]. split; [lia|].
      replace (i - k) with (S (i - S k)) by lia. exact Hn.
  - destruct (IH (S k) H) as [Hk Hn]. split; [lia|].
    replace (i - k) with (S (i - S k)) by lia. exact Hn.
Qed.

Lemma set_state_hit {Cb} (i : nat) (st : bool) (es : list (MenuEntry Cb)) (l : string) (c : Cb) (b : bool) :
  nth_error es i = Some (MCommand l c b) ->
  nth_error (set_state_at i st es) i = Some (MCommand l c st).
Proof.
  revert i; induction es as [|e es IH]; intros [|i] H; simpl in *; try discriminate.
  - injection H as ->. reflexivity.
  - destruct e; simpl; apply IH; exact H.
Qed.

End MenuFacts.

(** X: removing a command just added under a new label gives the menu
    back: [remove_command] undoes [add_command]. *)
Theorem add_remove_command {Cb} (m : CtxMenu Cb) (label : string) (callback : Cb) :
  ~ In (Some label) (menu_labels m) -> dict_mem label (actions m) = false ->
  remove_command (add_command m label callback) label = m.
Proof.
  intros Hl Ha. destruct m as [es acts]. unfold remove_command, add_command, find_menu_index.
  simpl in *. rewrite MenuFacts.dict_mem_set.
  rewrite (MenuFacts.find_from_app label 0 es [] callback true Hl). simpl.
  rewrite MenuFacts.remove_at_app, app_nil_r, MenuFacts.dict_del_set by exact Ha.
  reflexivity.
Qed.

Lemma add_remove_command_witness :
  remove_command (add_command (add_separator (add_command (mkMenu [] []) "Copy" 1)) "Rename" 2)
    "Rename" = add_separator (add_command (mkMenu [] []) "Copy" 1).
Proof.
  apply add_remove_command.
  - simpl. intuition discriminate.
  - reflexivity.
Defined.

(** X: adding two commands under the same label and removing that label
    deletes only the first menu entry but the label's action: the second
    entry stays in the menu with its callback, and from then on
    [remove_command] on that label does nothing. *)
Theorem duplicate_label_stays {Cb} (m : CtxMenu Cb) (label : string) (cb1 cb2 : Cb) :
  ~ In (Some label) (menu_labels m) -> dict_mem label (actions m) = false ->
  let m2 := remove_command (add_command (add_command m label cb1) label cb2) label in
  entries m2 = (entries m ++ [MCommand label cb2 true])%list /\
  actions m2 = actions m /\
  remove_command m2 label = m2.
Proof.
  intros Hl Ha. destruct m as [es acts]. unfold remove_command, add_command, find_menu_index.
  simpl in *. rewrite MenuFacts.dict_mem_set.
  replace ((es ++ [MCommand label cb1 true]) ++ [MCommand label cb2 true])%list
    with (es ++ MCommand label cb1 true :: [MCommand label cb2 true])%list
    by (rewrite <- app_assoc; reflexivity).
  rewrite (MenuFacts.find_from_app label 0 es _ cb1 true Hl). simpl.
  rewrite MenuFacts.remove_at_app, MenuFacts.dict_set_set, MenuFacts.dict_del_set by exact Ha.
  simpl. rewrite Ha. auto.
Qed.

Lemma duplicate_label_stays_witness :
  let m2 := remove_command (add_command (add_command (mkMenu [] []) "Rename" 1) "Rename" 2) "Rename" in
  entries m2 = [MCommand "Rename" 2 true] /\ actions m2 = [] /\ remove_command m2 "Rename" = m2.
Proof.
  apply (duplicate_label_stays (mkMenu [] []) "Rename" 1 2).
  - simpl. tauto.
  - reflexivity.
Defined.

(** X: [enable_command] and [disable_command] set the state of the first
    command entry with that label and change nothing else: the actions, the
    labels and every other entry stay as they were. *)
Theorem set_command_state (Cb : Type) (m : CtxMenu Cb) (label : string) :
  forall st : bool, let m' := if st then enable_command m label else disable_command m label in
  actions m' = actions m /\ menu_labels m' = menu_labels m /\
  (forall j, find_menu_index m label <> Some j -> nth_error (entries m') j = nth_error (entries m) j) /\
  (forall i, find_menu_index m label = Some i ->
     exists c b, nth_error (entries m) i = Some (MCommand label c b) /\
                 nth_error (entries m') i = Some (MCommand label c st)).
Proof.
  intros st. cbv zeta.
  assert (H : forall m'', m'' = (match find_menu_index m label with
              | Some i => mkMenu (set_state_at i st (entries m)) (actions m)
              | None => m end) ->
    actions m'' = actions m /\ menu_labels m'' = menu_labels m /\
    (forall j, find_menu_index m label <> Some j -> nth_error (entries m'') j = nth_error (entries m) j) /\
    (forall i, find_menu_index m label = Some i ->
       exists c b, nth_error (entries m) i = Some (MCommand label c b) /\
                   nth_error (entries m'') i = Some (MCommand label c st))).
  { intros m'' ->. destruct (find_menu_index m label) as [i|] eqn:Ef.
    - simpl. split; [reflexivity|]. split; [apply MenuFacts.set_state_labels|]. split.
      + intros j Hj. apply MenuFacts.set_state_other. congruence.
      + intros i' Hi. injection Hi as <-.
        destruct (MenuFacts.find_from_some label 0 i (entries m) Ef) as [_ (c & b & Hn)].
        rewrite Nat.sub_0_r in Hn. exists c, b. split; [exact Hn|].
        exact (MenuFacts.set_state_hit i st (entries m) label c b Hn).
    - split; [reflexivity|]. split; [reflexivity|]. split; [auto|discriminate]. }
  apply H. destruct st; reflexivity.
Qed.

(** * System configuration handlers *)

(** Effects of the configuration handlers: those of the file handlers and
    [messagebox.showinfo]. *)
Inductive UiEffect :=
| Ui (e : Effect)
| ShowInfo (title msg : string).

(** The host the handlers run on: the external command runner and the
    answer the user gives to [messagebox.askyesno(title, message)]. *)
Record Host := mkHost {
  hrunner : string -> string * string;
  answer : string -> string -> bool
}.

(** A call of [run_powershell_command(command)] with the value it returns:
    [stdout.strip()] on success, [None] for [False].  (Its callers in the
    transfer handlers only compare that value with [False], which is why
    [run_powershell_command] above leaves out the strip.) *)
Definition ps_call (runner : string -> string * string) (command : string)
    : list UiEffect * option string :=
  let (e, r) := run_powershell_command runner command in
  (Ui (RunPowershell command) :: map Ui e, option_map strip r).

Definition nl : string := String "010"%char "".
Definition dq : string := String "034"%char "".

(** [enable_dhcp()] *)
Definition dhcp_command : string := "Set-NetIPInterface -InterfaceAlias 'Ethernet' -Dhcp Enabled".

Definition enable_dhcp (h : Host) : list UiEffect :=
  let q := "Enable DHCP on the network interface?" in
  Ui (AskYesNo "Confirm" q) ::
  if answer h "Confirm" q then
    let (e, r) := ps_call (hrunner h) dhcp_command in
    (e ++ match r with Some _ => [Ui (SetStatus "DHCP enabled successfully")] | None => [] end)%list
  else [].

(** [apply_static_ip()], given the five entry fields. *)
Definition ip_command (ip subnet gateway : string) : string :=
  "New-NetIPAddress -IPAddress " ++ ip ++ " -PrefixLength " ++ subnet ++
  " -DefaultGateway " ++ gateway ++ " -InterfaceAlias 'Ethernet'".

Definition dns_servers (dns1 dns2 : string) : list string :=
  ((if negb (strip dns1 =? "") then [strip dns1] else []) ++
   (if negb (strip dns2 =? "") then [strip dns2] else []))%list.

Definition dns_command (servers : list string) : string :=
  "Set-DnsClientServerAddress -InterfaceAlias 'Ethernet' -ServerAddresses "
  ++ ("'" ++ String.concat "','" servers ++ "'").

Definition static_ip_commands (ip subnet gateway dns1 dns2 : string) : list string :=
  ip_command ip subnet gateway ::
  match dns_servers dns1 dns2 with [] => [] | ds => [dns_command ds] end.

(** The [for cmd in commands] loop: [false] when a command failed. *)
Fixpoint run_commands (runner : string -> string * string) (cmds : list string)
    : list UiEffect * bool :=
  match cmds with
  | [] => ([], true)
  | c :: cs =>
      let (e, r) := ps_call runner c in
      match r with
      | None => (e ++ [Ui (SetStatus "Static IP configuration failed")], false)%list
      | Some _ => let (e', ok) := run_commands runner cs in ((e ++ e')%list, ok)
      end
  end.

Definition or_not_set (s : string) : string := if (s =? "")%string then "Not set" else s.

Definition static_ip_summary (ip subnet gateway dns1 dns2 : string) : string :=
  "Network configuration has been updated with the following:" ++ nl ++
  "IP: " ++ ip ++ nl ++ "Subnet: " ++ subnet ++ nl ++ "Gateway: " ++ gateway ++ nl ++
  "Primary DNS: " ++ or_not_set dns1 ++ nl ++ "Secondary DNS: " ++ or_not_set dns2.

Definition static_ip_success : string := "Static IP configuration applied successfully".

Definition apply_static_ip (h : Host) (ip subnet gateway dns1 dns2 : string) : list UiEffect :=
  if (ip =? "") || (subnet =? "") || (gateway =? "") then
    [Ui (ShowWarning "Input Error" "IP address, subnet mask, and gateway are required")]
  else
    let q := "Apply static IP configuration?" in
    Ui (AskYesNo "Confirm" q) ::
    if answer h "Confirm" q then
      let (e, ok) := run_commands (hrunner h) (static_ip_commands ip subnet gateway dns1 dns2) in
      (e ++ if ok then [Ui (SetStatus static_ip_success);
                        ShowInfo "Success" (static_ip_summary ip subnet gateway dns1 dns2)]
            else [])%list
    else [].

(** [get_available_timezones()]: the effects and the returned list. *)
Definition timezones_command : string :=
  "Get-TimeZone -ListAvailable | Select-Object -ExpandProperty Id".

Definition get_available_timezones (h : Host) : list UiEffect * list string :=
  let (e, r) := ps_call (hrunner h) timezones_command in
  (e, match r with
      | Some s => if (s =? "")%string then [] else sort_by String.leb (split_lines s)
      | None => []
      end).

(** [rename_computer()], given the name field. *)
Definition rename_command (new_name : string) : string :=
  "Rename-Computer -NewName '" ++ new_name ++ "' -Force".

Definition restart_command : string := "Restart-Computer -Force".

Definition rename_question (new_name : string) : string :=
  "Rename computer to '" ++ new_name ++ "'?".

Definition rename_computer (h : Host) (new_name : string) : list UiEffect :=
  if (new_name =? "")%string then [Ui (ShowWarning "Input Error" "Computer name is required")]
  else
    Ui (AskYesNo "Confirm" (rename_question new_name)) ::
    if answer h "Confirm" (rename_question new_name) then
      let (e, r) := ps_call (hrunner h) (rename_command new_name) in
      (e ++ match r with
            | Some _ =>
                Ui (SetStatus "Computer renamed - restart required") ::
                Ui (AskYesNo "Restart" "Restart computer now?") ::
                if answer h "Restart" "Restart computer now?"
                then fst (ps_call (hrunner h) restart_command) else []
            | None => []
            end)%list
    else [].

(** [set_timezone()], given the time zone field. *)
Definition set_timezone (h : Host) (timezone : string) : list UiEffect :=
  if (timezone =? "")%string then [Ui (ShowWarning "Input Error" "Please select a time zone")]
  else
    let q := "Set time zone to '" ++ timezone ++ "'?" in
    Ui (AskYesNo "Confirm" q) ::
    if answer h "Confirm" q then
      let (e, r) := ps_call (hrunner h) ("Set-TimeZone -Id '" ++ timezone ++ "'") in
      (e ++ match r with Some _ => [Ui (SetStatus "Time zone updated successfully")] | None => [] end)%list
    else [].

(** [check_activation()].  [x in result] for a one-character [x]. *)
Definition has_char (c : ascii) (s : string) : bool :=
  existsb (Ascii.eqb c) (list_ascii_of_string s).

Definition activation_query : string :=
  "Get-WmiObject -Query " ++ dq ++ "SELECT LicenseStatus FROM " ++
  "SoftwareLicensingProduct WHERE PartialProductKey IS NOT NULL" ++ dq.

Definition activate_command : string := "slmgr.vbs /ato".

Definition activate_question : string := "Windows is not activated. Attempt activation now?".

Definition check_activation (h : Host) : list UiEffect :=
  let (e, r) := ps_call (hrunner h) activation_query in
  (e ++
   if match r with Some s => negb (s =? "") && has_char "1" s | None => false end then
     [ShowInfo "Activation" "Windows is already activated"]
   else
     Ui (AskYesNo "Activation" activate_question) ::
     if answer h "Activation" activate_question then
       let (e2, r2) := ps_call (hrunner h) activate_command in
       (e2 ++ match r2 with Some _ => [Ui (SetStatus "Windows activation attempted")] | None => [] end)%list
     else [])%list.

(** The commands a list of effects shows as run, in order. *)
Definition ui_runs (effs : list UiEffect) : list string :=
  flat_map (fun e => match e with Ui (RunPowershell c) => [c] | _ => [] end) effs.

Module ConfigFacts.

Lemma ps_call_eq (runner : string -> string * string) (c : string) :
  ps_call runner c =
  (Ui (RunPowershell c) ::
     (if (snd (runner c) =? "")%string then [] else [Ui (ShowError "Error" (snd (runner c)))]),
   if (snd (runner c) =? "")%string then Some (strip (fst (runner c))) else None).
Proof.
  unfold ps_call, run_powershell_command. destruct (runner c) as [o e]. simpl.
  destruct (e =? "")%string; reflexivity.
Qed.

Lemma ui_runs_app (a b : list UiEffect) : ui_runs (a ++ b) = (ui_runs a ++ ui_runs b)%list.
Proof. apply flat_map_app. Qed.

Lemma run_commands_spec (runner : string -> string * string) (cmds : list string) :
  let (e, ok) := run_commands runner cmds in
  (exists k, ui_runs e = firstn k cmds /\
     forall j c, S j < k -> nth_error cmds j = Some c -> snd (runner c) = "") /\
  (ok = true -> ui_runs e = cmds /\ forall c, In c cmds -> snd (runner c) = "") /\
  ~ In (Ui (SetStatus static_ip_success)) e.
Proof.
  induction cmds as [|c cs IH]; simpl.
  - split; [exists 0; split; [reflexivity|intros; lia]|]. split; [intros _; split; [reflexivity|intros _ []]|].
    intros [].
  - rewrite ps_call_eq. destruct (snd (runner c) =? "")%string eqn:Ec.
    + apply String.eqb_eq in Ec. destruct (run_commands runner cs) as [e' ok].
      destruct IH as ((k & Hk & Hj) & Hok & Hs). split; [|split].
      * exists (S k). split; [simpl; rewrite Hk; reflexivity|].
        intros [|j] c' Hlt Hn; simpl in Hn; [injection Hn as <-; exact Ec|].
        apply (Hj j c'); [lia|exact Hn].
      * intros Ho. destruct (Hok Ho) as [H1 H2]. split; [simpl; rewrite H1; reflexivity|].
        intros c' [<-|Hc]; auto.
      * simpl. intros [H|H]; [discriminate|contradiction].
    + split; [|split].
      * exists 1. split; [reflexivity|intros; lia].
      * discriminate.
      * simpl. intuition discriminate.
Qed.

Lemma drop_while_In {A} (p : A -> bool) (l : list A) (x : A) :
  p x = false -> In x (drop_while p l) <-> In x l.
Proof.
  intros Hx. induction l as [|y l IH]; simpl; [tauto|].
  destruct (p y) eqn:Hy; simpl; [|tauto].
  rewrite IH. split; [tauto|]. intros [<-|H]; [congruence|exact H].
Qed.

Lemma has_char_In (c : ascii) (s : string) :
  has_char c s = true <-> In c (list_ascii_of_string s).
Proof.
  unfold has_char. rewrite existsb_exists. split.
  - intros (x & Hx & E). apply Ascii.eqb_eq in E. subst. exact Hx.
  - intros H. exists c. split; [exact H|apply Ascii.eqb_refl].
Qed.

Lemma strip_In (c : ascii) (s : string) :
  py_isspace c = false ->
  In c (list_ascii_of_string (strip s)) <-> In c (list_ascii_of_string s).
Proof.
  intros Hc. unfold strip. rewrite list_ascii_of_string_of_list_ascii.
  rewrite <- in_rev, drop_while_In by exact Hc.
  rewrite <- in_rev, drop_while_In by exact Hc. tauto.
Qed.

Lemma has_one_strip (s : string) : has_char "1" (strip s) = has_char "1" s.
Proof.
  apply eq_true_iff_eq. rewrite !has_char_In. apply strip_In. reflexivity.
Qed.

Lemma has_one_nonempty (s : string) : has_char "1" s = true -> (strip s =? "")%string = false.
Proof.
  intros H. rewrite <- has_one_strip in H. apply String.eqb_neq. intros E.
  rewrite E in H. discriminate.
Qed.

Lemma activate_ne_query : activate_command <> activation_query.
Proof. discriminate. Qed.

Lemma restart_ne_rename (n : string) : restart_command <> rename_command n.
Proof. unfold rename_command. simpl. discriminate. Qed.

End ConfigFacts.

(** X: when the user answers no to every question, none of
    [enable_dhcp], [apply_static_ip], [rename_computer] and [set_timezone]
    runs a command, and [check_activation] runs only its license query. *)
Theorem no_command_without_yes (h : Host) :
  (forall t m, answer h t m = false) ->
  forall ip subnet gateway dns1 dns2 new_name timezone,
  ui_runs (enable_dhcp h) = [] /\
  ui_runs (apply_static_ip h ip subnet gateway dns1 dns2) = [] /\
  ui_runs (rename_computer h new_name) = [] /\
  ui_runs (set_timezone h timezone) = [] /\
  ui_runs (check_activation h) = [activation_query].
Proof.
  intros Hno ip subnet gateway dns1 dns2 new_name timezone.
  unfold enable_dhcp, apply_static_ip, rename_computer, set_timezone, check_activation.
  rewrite !Hno. rewrite ConfigFacts.ps_call_eq.
  repeat split.
  - destruct ((ip =? "") || (subnet =? "") || (gateway =? ""))%bool; reflexivity.
  - destruct (new_name =? "")%string; reflexivity.
  - destruct (timezone =? "")%string; reflexivity.
  - rewrite ConfigFacts.ui_runs_app.
    destruct (snd (hrunner h activation_query) =? "")%string;
      [destruct (negb (strip (fst (hrunner h activation_query)) =? "") &&
                 has_char "1" (strip (fst (hrunner h activation_query))))%bool|]; reflexivity.
Qed.

Definition declining_host : Host := mkHost (fun _ => ("", "")) (fun _ _ => false).

Lemma no_command_without_yes_witness :
  ui_runs (rename_computer declining_host "LAB-PC-07") = [] /\
  ui_runs (check_activation declining_host) = [activation_query].
Proof.
  destruct (no_command_without_yes declining_host (fun _ _ => eq_refl)
              "10.0.0.5" "24" "10.0.0.1" "" "" "LAB-PC-07" "UTC") as (_ & _ & H3 & _ & H5).
  split; [exact H3|exact H5].
Defined.

(** X: [apply_static_ip] runs its commands (the address command, then the
    DNS command when a DNS field is not blank) in order and stops at the
    first that fails, so a command runs only after every earlier one
    succeeded; it reports success only when the three required fields are
    set, the user confirmed, and every command ran without error output. *)
Theorem static_ip_runs (h : Host) (ip subnet gateway dns1 dns2 : string) :
  let effs := apply_static_ip h ip subnet gateway dns1 dns2 in
  let cmds := static_ip_commands ip subnet gateway dns1 dns2 in
  (exists k, ui_runs effs = firstn k cmds /\
     forall j c, S j < k -> nth_error cmds j = Some c -> snd (hrunner h c) = "") /\
  (In (Ui (SetStatus static_ip_success)) effs ->
     ip <> "" /\ subnet <> "" /\ gateway <> "" /\
     answer h "Confirm" "Apply static IP configuration?" = true /\
     ui_runs effs = cmds /\ forall c, In c cmds -> snd (hrunner h c) = "").
Proof.
  cbv zeta. unfold apply_static_ip.
  destruct ((ip =? "") || (subnet =? "") || (gateway =? ""))%bool eqn:Ef.
  - split; [exists 0; split; [reflexivity|intros; lia]|]. simpl. intuition discriminate.
  - apply orb_false_iff in Ef as [Ef Eg]. apply orb_false_iff in Ef as [Ei Es].
    apply String.eqb_neq in Ei, Es, Eg.
    destruct (answer h "Confirm" "Apply static IP configuration?") eqn:Ea.
    + pose proof (ConfigFacts.run_commands_spec (hrunner h)
                    (static_ip_commands ip subnet gateway dns1 dns2)) as Hs.
      destruct (run_commands (hrunner h) (static_ip_commands ip subnet gateway dns1 dns2))
        as [e ok].
      destruct Hs as ((k & Hk & Hj) & Hok & Hn).
      split.
      * exists k. split; [|exact Hj].
        change (ui_runs (Ui (AskYesNo "Confirm" "Apply static IP configuration?") ::
                  (e ++ if ok then [Ui (SetStatus static_ip_success);
                     ShowInfo "Success" (static_ip_summary ip subnet gateway dns1 dns2)] else [])))
          with (ui_runs (e ++ if ok then [Ui (SetStatus static_ip_success);
                     ShowInfo "Success" (static_ip_summary ip subnet gateway dns1 dns2)] else [])).
        rewrite ConfigFacts.ui_runs_app, Hk. destruct ok; simpl; apply app_nil_r.
      * intros [H|H]; [discriminate|]. apply in_app_or in H as [H|H]; [contradiction|].
        destruct ok; [|contradiction].
        destruct (Hok eq_refl) as [H1 H2]. repeat split; auto.
        change (ui_runs (Ui (AskYesNo "Confirm" "Apply static IP configuration?") ::
                  (e ++ [Ui (SetStatus static_ip_success);
                     ShowInfo "Success" (static_ip_summary ip subnet gateway dns1 dns2)])))
          with (ui_runs (e ++ [Ui (SetStatus static_ip_success);
                     ShowInfo "Success" (static_ip_summary ip subnet gateway dns1 dns2)])).
        rewrite ConfigFacts.ui_runs_app, H1. apply app_nil_r.
    + split; [exists 0; split; [reflexivity|intros; lia]|]. simpl. intuition discriminate.
Qed.

(** X: [get_available_timezones] returns the lines of the stripped output
    of its command, sorted, when the command succeeds with non-blank
    output, and an empty list otherwise. *)
Theorem timezones_sorted (h : Host) :
  let tzs := snd (get_available_timezones h) in
  let (out, err) := hrunner h timezones_command in
  if (err =? "")%string && negb (strip out =? "")%string then
    Permutation tzs (split_lines (strip out)) /\
    StronglySorted (fun a b => String.leb a b = true) tzs
  else tzs = [].
Proof.
  cbv zeta. unfold get_available_timezones. rewrite ConfigFacts.ps_call_eq.
  destruct (hrunner h timezones_command) as [out err]. simpl.
  destruct (err =? "")%string; simpl; [|reflexivity].
  destruct (strip out =? "")%string; simpl; [reflexivity|].
  split; [apply sort_by_perm|].
  apply (sort_by_sorted string String.leb String.leb_total SortOrder.string_leb_trans).
Qed.

(** X: [rename_computer] runs [Restart-Computer] only after a non-empty
    name, a "yes" to the rename, a rename command without error output and
    a "yes" to the restart; the commands are then exactly the rename and
    the restart, in that order. *)
Theorem restart_only_after_rename (h : Host) (new_name : string) :
  In (Ui (RunPowershell restart_command)) (rename_computer h new_name) ->
  new_name <> "" /\ answer h "Confirm" (rename_question new_name) = true /\
  snd (hrunner h (rename_command new_name)) = "" /\
  answer h "Restart" "Restart computer now?" = true /\
  ui_runs (rename_computer h new_name) = [rename_command new_name; restart_command].
Proof.
  pose proof (ConfigFacts.restart_ne_rename new_name) as Hne.
  unfold rename_computer. rewrite !ConfigFacts.ps_call_eq. simpl fst.
  destruct (new_name =? "")%string eqn:En; [simpl; intuition discriminate|].
  apply String.eqb_neq in En.
  destruct (answer h "Confirm" (rename_question new_name)) eqn:A1; [|simpl; intuition discriminate].
  destruct (snd (hrunner h (rename_command new_name)) =? "")%string eqn:Er.
  - apply String.eqb_eq in Er.
    destruct (answer h "Restart" "Restart computer now?") eqn:A2.
    + intros _. repeat split; auto.
      destruct (snd (hrunner h restart_command) =? "")%string; reflexivity.
    + simpl. intuition congruence.
  - simpl. intuition congruence.
Qed.

Definition restarting_host : Host := mkHost (fun _ => ("", "")) (fun _ _ => true).

Lemma restart_only_after_rename_witness :
  In (Ui (RunPowershell restart_command)) (rename_computer restarting_host "LAB-PC-07") /\
  ui_runs (rename_computer restarting_host "LAB-PC-07") =
    [rename_command "LAB-PC-07"; restart_command].
Proof.
  assert (H : In (Ui (RunPowershell restart_command)) (rename_computer restarting_host "LAB-PC-07"))
    by (vm_compute; tauto).
  split; [exact H|].
  exact (proj2 (proj2 (proj2 (proj2 (restart_only_after_rename restarting_host "LAB-PC-07" H))))).
Defined.

(** X: [check_activation] runs [slmgr.vbs /ato] exactly when the user
    agrees and the license query either failed or printed no "1". *)
Theorem activation_attempt (h : Host) :
  In (Ui (RunPowershell activate_command)) (check_activation h) <->
  answer h "Activation" activate_question = true /\
  (snd (hrunner h activation_query) <> "" \/
   has_char "1" (fst (hrunner h activation_query)) = false).
Proof.
  pose proof ConfigFacts.activate_ne_query as Hne.
  unfold check_activation. rewrite !ConfigFacts.ps_call_eq.
  destruct (hrunner h activation_query) as [out err]. cbn [fst snd].
  destruct (err =? "")%string eqn:Ee.
  - apply String.eqb_eq in Ee. subst err. cbn -[has_char strip activate_command activation_query].
    rewrite ConfigFacts.has_one_strip.
    destruct (has_char "1" out) eqn:Eh.
    + rewrite (ConfigFacts.has_one_nonempty out Eh). simpl. intuition congruence.
    + rewrite andb_false_r. simpl.
      destruct (answer h "Activation" activate_question); simpl; [|intuition congruence].
      intuition.
  - apply String.eqb_neq in Ee. simpl.
    destruct (answer h "Activation" activate_question); simpl; [|intuition congruence].
    intuition.
Qed.

(** * Drives and the transfer tab *)

(** [string.ascii_uppercase] *)
Definition ascii_uppercase : list ascii := map ascii_of_nat (seq 65 26).

(** [_get_available_drives()].  [win32api] is never imported (the import is
    commented out), so [win32api.GetLogicalDrives()] raises [NameError],
    which the bare [except] catches before any drive is added: the result
    is always the fallback's, the letters whose [f"{letter}:"] exists. *)
Definition get_available_drives (path_exists : string -> bool) : list string :=
  filter path_exists (map (fun c => String c ":") ascii_uppercase).

(** The drive comboboxes and the two panes of the "Transfer Files" tab. *)
Record TransferTab := mkTab {
  combo_a : string;
  combo_b : string;
  combo_values : list string;
  tab_gui : Gui
}.

(** [_on_tab_changed(event)], given the index of the selected tab. *)
Definition on_tab_changed (fs : FS) (path_exists : string -> bool) (index : nat)
    (t : TransferTab) : TransferTab :=
  if Nat.eqb index 3 then
    let drives := get_available_drives path_exists in
    let t1 := mkTab (combo_a t) (combo_b t) drives (tab_gui t) in
    let t2 :=
      match drives with
      | d0 :: _ =>
          if (combo_a t1 =? "")%string then
            mkTab d0 (combo_b t1) drives
              (mkGui (populate_root fs (nav_source (tab_gui t1)) d0) (nav_dest (tab_gui t1)))
          else t1
      | [] => t1
      end in
    if (combo_b t2 =? "")%string then
      match drives with
      | _ :: d1 :: _ =>
          mkTab (combo_a t2) d1 drives
            (mkGui (nav_source (tab_gui t2)) (populate_root fs (nav_dest (tab_gui t2)) d1))
      | d0 :: _ =>
          mkTab (combo_a t2) d0 drives
            (mkGui (nav_source (tab_gui t2)) (populate_root fs (nav_dest (tab_gui t2)) d0))
      | [] => t2
      end
    else t2
  else t.

Module DriveFacts.

Lemma filter_strongly_sorted {A} (R : A -> A -> Prop) (f : A -> bool) (l : list A) :
  StronglySorted R l -> StronglySorted R (filter f l).
Proof.
  induction 1 as [|x l Hs IH Hf]; simpl; [constructor|].
  destruct (f x); [|exact IH]. constructor; [exact IH|].
  rewrite Forall_forall in *. intros y Hy. apply filter_In in Hy. apply Hf. tauto.
Qed.

Lemma strongly_sorted_nodup {A} (R : A -> A -> Prop) (l : list A) :
  (forall x, ~ R x x) -> StronglySorted R l -> NoDup l.
Proof.
  intros Hirr. induction 1 as [|x l Hs IH Hf]; constructor; [|exact IH].
  intros Hx. rewrite Forall_forall in Hf. exact (Hirr x (Hf x Hx)).
Qed.

Lemma string_compare_refl (s : string) : String.compare s s = Eq.
Proof.
  induction s as [|c s IH]; simpl; [reflexivity|].
  unfold Ascii.compare. rewrite BinNat.N.compare_refl. exact IH.
Qed.

Lemma all_drives_sorted :
  StronglySorted (fun a b => String.ltb a b = true) (map (fun c => String c ":") ascii_uppercase).
Proof. vm_compute. repeat constructor. Qed.

End DriveFacts.

(** X: [_get_available_drives()] returns exactly the existing paths
    "A:" to "Z:", each once, in alphabetical order. *)
Theorem available_drives (path_exists : string -> bool) :
  (forall d, In d (get_available_drives path_exists) <->
     path_exists d = true /\ exists n, 65 <= n <= 90 /\ d = String (ascii_of_nat n) ":") /\
  StronglySorted (fun a b => String.ltb a b = true) (get_available_drives path_exists) /\
  NoDup (get_available_drives path_exists).
Proof.
  assert (Hs : StronglySorted (fun a b => String.ltb a b = true) (get_available_drives path_exists))
    by (apply DriveFacts.filter_strongly_sorted, DriveFacts.all_drives_sorted).
  split; [|split; [exact Hs|]].
  - intros d. unfold get_available_drives, ascii_uppercase.
    rewrite filter_In, map_map, in_map_iff. split.
    + intros [(n & <- & Hn) He]. split; [exact He|]. exists n. apply in_seq in Hn.
      split; [lia|reflexivity].
    + intros [He (n & Hn & ->)]. split; [|exact He]. exists n. split; [reflexivity|].
      apply in_seq. lia.
  - apply (DriveFacts.strongly_sorted_nodup (fun a b => String.ltb a b = true)); [|exact Hs].
    intros x H. unfold String.ltb in H. rewrite DriveFacts.string_compare_refl in H. discriminate.
Qed.

(** X: opening the "Transfer Files" tab refreshes the drive lists, keeps a
    drive already chosen in either combobox with its pane, and on a first
    visit roots the source pane at the first available drive and the
    destination pane at the second (or the first when there is only one);
    with no drive at all both panes are left as they were. *)
Theorem tab_changed_panes (fs : FS) (path_exists : string -> bool) (t : TransferTab) :
  let t' := on_tab_changed fs path_exists 3 t in
  combo_values t' = get_available_drives path_exists /\
  (combo_a t <> "" -> combo_a t' = combo_a t /\ nav_source (tab_gui t') = nav_source (tab_gui t)) /\
  (combo_b t <> "" -> combo_b t' = combo_b t /\ nav_dest (tab_gui t') = nav_dest (tab_gui t)) /\
  (combo_a t = "" -> combo_b t = "" ->
   match get_available_drives path_exists with
   | [] => tab_gui t' = tab_gui t
   | d0 :: rest =>
       let d1 := hd d0 rest in
       combo_a t' = d0 /\ combo_b t' = d1 /\
       navigation_history (nav_source (tab_gui t')) = [d0] /\
       current_path (nav_source (tab_gui t')) = Some d0 /\
       navigation_history (nav_dest (tab_gui t')) = [d1] /\
       current_path (nav_dest (tab_gui t')) = Some d1
   end).
Proof.
  cbv zeta. unfold on_tab_changed. simpl Nat.eqb. cbv iota beta.
  destruct (get_available_drives path_exists) as [|d0 [|d1 rest]]; simpl;
    destruct (String.eqb_spec (combo_a t) "") as [Ea|Ea]; simpl;
    destruct (String.eqb_spec (combo_b t) "") as [Eb|Eb]; simpl;
    repeat (split || intro); try congruence;
    first [apply (proj1 (NavFacts.populate_root_state _ _ _))
          |apply (proj2 (NavFacts.populate_root_state _ _ _))].
Qed.
